(** * LLVMCalc: a shallow embedding of [calculator.cpp]

    The program reads arithmetic expressions from standard input, builds
    an AST with a precedence-climbing parser and hands it to an LLVM
    [IRBuilder].  This file embeds the lexer ([gettok]), the parser
    ([ParsePrimary], [ParseBinOpRHS], ...), the code generator
    ([BinaryExprAST::codegen], [FunctionAST::codegen]) and the driver
    ([HandleTopLevelExpression], [MainLoop], [main]) as functions over an
    explicit program state, and proves properties of them.

    The source keeps its state in file-level statics ([LastChar],
    [NumVal], [CurTok], [BinopPrecedence], [TheModule], [Builder],
    [NamedValues]); here they are the fields of one record that every
    function takes and returns. *)

From Stdlib Require Import ZArith Lia Ascii ZifyBool.
From stdpp Require Import base gmap strings list.

Local Open Scope Z_scope.

(** ** Characters and <ctype.h>

    [getchar] returns an [int]: the next byte as an [unsigned char], or
    [EOF].  The classification functions are those of the "C" locale,
    which is the one in force since the program never calls
    [setlocale]. *)

Definition EOF : Z := -1.

Definition int_of_ascii (a : ascii) : Z := Z.of_N (Ascii.N_of_ascii a).

(** Conversion of an [int] to a [char] that is appended to a
    [std::string]: the low eight bits. *)
Definition ascii_of_int (c : Z) : ascii := Ascii.ascii_of_N (Z.to_N (c mod 256)).

Definition isspace (c : Z) : bool := (c =? 32) || ((9 <=? c) && (c <=? 13)).
Definition isdigit (c : Z) : bool := (48 <=? c) && (c <=? 57).
Definition isalpha (c : Z) : bool :=
  ((65 <=? c) && (c <=? 90)) || ((97 <=? c) && (c <=? 122)).
Definition isalnum (c : Z) : bool := isalpha c || isdigit c.
Definition isascii (c : Z) : bool := (0 <=? c) && (c <=? 127).

(** Character literals used by the source. *)
Definition ch (a : ascii) : Z := int_of_ascii a.
Arguments ch a%_char.

(** The line feed, for the messages the program prints. *)
Definition LF : string := String (Ascii.ascii_of_nat 10) EmptyString.

(** ** Tokens

    [enum Token]: negative values for the three named tokens, and the
    character's own value in [0..255] for anything else. *)

Definition tok_eof : Z := -1.
Definition tok_error : Z := -2.
Definition tok_number : Z := -4.

(** ** The arithmetic of the constant folder

    The builder of the program is [IRBuilder<>], the builder with LLVM's
    default folder: a request whose operands are constants is not
    inserted as an instruction but computed, in the arithmetic of the
    operands' type, and returned as a constant.  That arithmetic is
    IEEE binary64 for the four operations and the three unordered
    comparisons, and the conversion of an [i1] to [double] gives 1.0 for
    true and 0.0 for false.  The embedding takes these as given. *)
Class ConstantFolder (double : Type) : Type := {
  fold_fadd : double -> double -> double;
  fold_fsub : double -> double -> double;
  fold_fmul : double -> double -> double;
  fold_fdiv : double -> double -> double;
  fold_ult : double -> double -> bool;
  fold_ugt : double -> double -> bool;
  fold_ueq : double -> double -> bool;
  fold_uitofp : bool -> double
}.

(** A folder on lexemes, for running the definitions on concrete
    inputs: a number is the text that denotes it, the result of an
    operation is the text of the operation, and two numbers compare as
    their texts do. *)
#[export] Instance lexeme_folder : ConstantFolder string := {|
  fold_fadd a b := "(" +:+ a +:+ " + " +:+ b +:+ ")";
  fold_fsub a b := "(" +:+ a +:+ " - " +:+ b +:+ ")";
  fold_fmul a b := "(" +:+ a +:+ " * " +:+ b +:+ ")";
  fold_fdiv a b := "(" +:+ a +:+ " / " +:+ b +:+ ")";
  fold_ult a b := String.ltb a b;
  fold_ugt a b := String.ltb b a;
  fold_ueq a b := String.eqb a b;
  fold_uitofp c := if c then "1.0" else "0.0"
|}.

Section Calculator.

(** The numeric type of the program is the C [double].  Its values are
    only stored and copied by the code modelled here; the one operation
    applied to text is the C library's [strtod].  Both are taken as
    parameters, together with the value [0.0] of a zero-initialised
    static [double]. *)
Context {double : Type}.
Variable strtod : string -> double.
Variable double_zero : double.
Context {folder : ConstantFolder double}.

(** ** The AST *)

Inductive ExprAST : Type :=
  | NumberExprAST (Val : double)
  | BinaryExprAST (Op : Z) (LHS RHS : ExprAST).

Record PrototypeAST : Type := mkPrototypeAST {
  Name : string;
  Args : list string
}.

Record FunctionAST : Type := mkFunctionAST {
  Proto : PrototypeAST;
  Body : ExprAST
}.

(** [BinaryExprAST]'s constructor receives the operator token as an
    [int] and stores it in a [char] field: an 8-bit signed value on the
    platforms LLVM's tutorial targets. *)
Definition char_of_int (c : Z) : Z := (c + 128) mod 256 - 128.

(** ** The IR that the builder produces

    An LLVM [Value*] points at a constant, an argument or an
    instruction, and an instruction holds the [Value*]s of its operands.
    The embedding follows that shape: a value is a tree whose leaves are
    constants and arguments.  A constant is a [double] or an [i1]. *)

Inductive IRType : Type := DoubleTy | Int1Ty.

Inductive BinaryOps : Type := FAdd | FSub | FMul | FDiv.

Inductive Predicate : Type := FCMP_ULT | FCMP_UGT | FCMP_UEQ.

Inductive Value : Type :=
  | ConstantFP (V : double)
  | ConstantInt (V : bool)
  | Argument (ArgNo : nat) (ArgName : string)
  | BinaryOperator (Opc : BinaryOps) (L R : Value) (Nm : string)
  | FCmpInst (P : Predicate) (L R : Value) (Nm : string)
  | UIToFPInst (V : Value) (DestTy : IRType) (Nm : string)
  | ReturnInst (V : Value).


Record BasicBlock : Type := mkBasicBlock {
  bb_name : string;
  bb_insts : list Value
}.

Record Function : Type := mkFunction {
  fn_name : string;
  fn_args : list string;
  fn_blocks : list BasicBlock
}.

(** A module owns its functions in creation order; LLVM's symbol table
    keeps their names distinct. *)
Definition Module : Type := list Function.

(** What the program writes.  Everything goes to the error stream
    ([fprintf(stderr, ...)], [print(errs())]).  The text LLVM produces
    for a function or a module is not modelled: the event carries the
    object that was printed. *)
Inductive Output : Type :=
  | Text (s : string)
  | PrintFunction (F : option Function)
  | PrintModule (M : Module).

(** ** Program state *)

Record State : Type := mkState {
  stdin : string;                      (* unread bytes of standard input *)
  LastChar : Z;                        (* static int LastChar in gettok *)
  NumVal : double;
  CurTok : Z;
  BinopPrecedence : gmap Z Z;          (* std::map<int, int> *)
  TheModule : Module;
  Builder : option (string * nat);     (* insertion block: function, block index *)
  NamedValues : gmap string Value;
  stderr : list Output
}.

Definition set_input (c : Z) (input : string) (st : State) : State :=
  mkState input c (NumVal st) (CurTok st) (BinopPrecedence st)
          (TheModule st) (Builder st) (NamedValues st) (stderr st).

Definition set_NumVal (d : double) (st : State) : State :=
  mkState (stdin st) (LastChar st) d (CurTok st) (BinopPrecedence st)
          (TheModule st) (Builder st) (NamedValues st) (stderr st).

Definition set_CurTok (t : Z) (st : State) : State :=
  mkState (stdin st) (LastChar st) (NumVal st) t (BinopPrecedence st)
          (TheModule st) (Builder st) (NamedValues st) (stderr st).

Definition set_BinopPrecedence (m : gmap Z Z) (st : State) : State :=
  mkState (stdin st) (LastChar st) (NumVal st) (CurTok st) m
          (TheModule st) (Builder st) (NamedValues st) (stderr st).

Definition set_TheModule (m : Module) (st : State) : State :=
  mkState (stdin st) (LastChar st) (NumVal st) (CurTok st) (BinopPrecedence st)
          m (Builder st) (NamedValues st) (stderr st).

Definition set_Builder (b : option (string * nat)) (st : State) : State :=
  mkState (stdin st) (LastChar st) (NumVal st) (CurTok st) (BinopPrecedence st)
          (TheModule st) b (NamedValues st) (stderr st).

Definition set_NamedValues (m : gmap string Value) (st : State) : State :=
  mkState (stdin st) (LastChar st) (NumVal st) (CurTok st) (BinopPrecedence st)
          (TheModule st) (Builder st) m (stderr st).

(** [fprintf(stderr, ...)] and the [print] methods append to the stream. *)
Definition emit (o : Output) (st : State) : State :=
  mkState (stdin st) (LastChar st) (NumVal st) (CurTok st) (BinopPrecedence st)
          (TheModule st) (Builder st) (NamedValues st) (stderr st ++ [o]).

(** ** Lexer *)

(** [getchar()]: the next byte, or [EOF] once the input is exhausted
    (and again on every later call). *)
Definition getchar (input : string) : Z * string :=
  match input with
  | EmptyString => (EOF, EmptyString)
  | String a rest => (int_of_ascii a, rest)
  end.

(** [while (isspace(LastChar)) LastChar = getchar();] *)
Fixpoint skip_space (c : Z) (input : string) : Z * string :=
  if isspace c then
    match input with
    | EmptyString => (EOF, EmptyString)
    | String a rest => skip_space (int_of_ascii a) rest
    end
  else (c, input).

(** [do { NumStr += LastChar; LastChar = getchar(); }
     while (isdigit(LastChar) || LastChar == '.');] *)
Fixpoint number_run (NumStr : string) (c : Z) (input : string)
  : string * Z * string :=
  let NumStr' := NumStr +:+ String (ascii_of_int c) EmptyString in
  match input with
  | EmptyString => (NumStr', EOF, EmptyString)
  | String a rest =>
      if isdigit (int_of_ascii a) || (int_of_ascii a =? ch ".")
      then number_run NumStr' (int_of_ascii a) rest
      else (NumStr', int_of_ascii a, rest)
  end.

(** The part of [gettok] after the identifier test (source lines 45-62). *)
Definition gettok_rest (st : State) : Z * State :=
  let c := LastChar st in
  if isdigit c || (c =? ch ".") then
    let '(NumStr, c', input') := number_run EmptyString c (stdin st) in
    (tok_number, set_NumVal (strtod NumStr) (set_input c' input' st))
  else if c =? EOF then
    (tok_eof, st)
  else
    let '(c', input') := getchar (stdin st) in
    (c, set_input c' input' st).

(** [gettok].  In the identifier branch the [return tok_error] is the
    body of the [while]: it runs when the character after the letter is
    alphanumeric; otherwise the loop ends at once and control falls
    through to the rest of the function with that character in
    [LastChar]. *)
Definition gettok (st : State) : Z * State :=
  let '(c, input) := skip_space (LastChar st) (stdin st) in
  let st1 := set_input c input st in
  if isalpha (LastChar st1) then
    let st2 := emit (Text ("Only numeric literals and operators are permitted." +:+ LF)) st1 in
    let '(c', input') := getchar (stdin st2) in
    let st3 := set_input c' input' st2 in
    if isalnum (LastChar st3) then (tok_error, st3)
    else gettok_rest st3
  else gettok_rest st1.

(** ** Parser state: the token buffer and the precedence table *)

(** [static int getNextToken() { return CurTok = gettok(); }] *)
Definition getNextToken (st : State) : Z * State :=
  let '(t, st') := gettok st in (t, set_CurTok t st').

(** [BinopPrecedence[k]] as an rvalue: [std::map::operator[]] returns the
    stored value, and when the key is absent it first inserts the key
    with a value-initialised [int], that is 0. *)
Definition map_subscript (m : gmap Z Z) (k : Z) : Z * gmap Z Z :=
  match m !! k with
  | Some v => (v, m)
  | None => (0, <[k := 0]> m)
  end.

Definition GetTokPrecedence (st : State) : Z * State :=
  if negb (isascii (CurTok st)) then (-1, st)
  else
    let '(TokPrec, tbl) := map_subscript (BinopPrecedence st) (CurTok st) in
    let st' := set_BinopPrecedence tbl st in
    if TokPrec <=? 0 then (-1, st') else (TokPrec, st').

(** [LogError]: prints the message; every caller then yields a null
    pointer, which the embedding writes as [None]. *)
Definition LogError (Str : string) (st : State) : State :=
  emit (Text ("Error: " +:+ Str +:+ LF)) st.

(** ** Results of functions that loop or recurse

    The parser is recursive through parentheses and the driver loops on
    the token stream, so both take a bound on the number of calls and
    iterations they may make.  [OutOfFuel] says the bound was reached;
    [Done a st] is a return of [a] in state [st]. *)
Inductive Result (A : Type) : Type :=
  | OutOfFuel
  | Done (a : A) (st : State).
Arguments OutOfFuel {A}.
Arguments Done {A} a st.

(** ** Parser *)

Definition ParseNumberExpr (st : State) : option ExprAST * State :=
  let Result := NumberExprAST (NumVal st) in
  let '(_, st1) := getNextToken st in
  (Some Result, st1).

Fixpoint ParseExpression (fuel : nat) (st : State) : Result (option ExprAST) :=
  match fuel with
  | O => OutOfFuel
  | S fuel =>
      match ParsePrimary fuel st with
      | OutOfFuel => OutOfFuel
      | Done None st1 => Done None st1
      | Done (Some LHS) st1 => ParseBinOpRHS fuel 0 LHS st1
      end
  end

with ParsePrimary (fuel : nat) (st : State) : Result (option ExprAST) :=
  match fuel with
  | O => OutOfFuel
  | S fuel =>
      if CurTok st =? tok_number then
        let '(r, st1) := ParseNumberExpr st in Done r st1
      else if CurTok st =? ch "(" then
        ParseParenExpr fuel st
      else
        Done None (LogError "unexpected token when expecting an expression" st)
  end

with ParseParenExpr (fuel : nat) (st : State) : Result (option ExprAST) :=
  match fuel with
  | O => OutOfFuel
  | S fuel =>
      let '(_, st1) := getNextToken st in
      match ParseExpression fuel st1 with
      | OutOfFuel => OutOfFuel
      | Done None st2 => Done None st2
      | Done (Some V) st2 =>
          if negb (CurTok st2 =? ch ")") then
            Done None (LogError "expected ')'" st2)
          else
            let '(_, st3) := getNextToken st2 in
            Done (Some V) st3
      end
  end

(** One call of [ParseBinOpRHS fuel] runs one iteration of the
    [while (true)] loop and continues, with the new [LHS], by calling
    itself. *)
with ParseBinOpRHS (fuel : nat) (ExprPrec : Z) (LHS : ExprAST) (st : State)
  : Result (option ExprAST) :=
  match fuel with
  | O => OutOfFuel
  | S fuel =>
      let '(TokPrec, st1) := GetTokPrecedence st in
      if TokPrec <? ExprPrec then Done (Some LHS) st1
      else
        let BinOp := CurTok st1 in
        let '(_, st2) := getNextToken st1 in
        match ParsePrimary fuel st2 with
        | OutOfFuel => OutOfFuel
        | Done None st3 => Done None st3
        | Done (Some RHS) st3 =>
            let '(NextPrec, st4) := GetTokPrecedence st3 in
            if TokPrec <? NextPrec then
              match ParseBinOpRHS fuel (TokPrec + 1) RHS st4 with
              | OutOfFuel => OutOfFuel
              | Done None st5 => Done None st5
              | Done (Some RHS') st5 =>
                  ParseBinOpRHS fuel ExprPrec
                    (BinaryExprAST (char_of_int BinOp) LHS RHS') st5
              end
            else
              ParseBinOpRHS fuel ExprPrec
                (BinaryExprAST (char_of_int BinOp) LHS RHS) st4
        end
  end.

Definition ParseTopLevelExpr (fuel : nat) (st : State) : Result (option FunctionAST) :=
  match ParseExpression fuel st with
  | OutOfFuel => OutOfFuel
  | Done (Some E) st1 =>
      let Proto := mkPrototypeAST "__anon_expr" [] in
      Done (Some (mkFunctionAST Proto E)) st1
  | Done None st1 => Done None st1
  end.

(** ** The module and the instruction builder

    Modelled from the spec: [llvm::Module], [llvm::Function],
    [llvm::BasicBlock] and [llvm::IRBuilder] belong to the LLVM library,
    which the program only calls.  The spec describes the builder as a
    capability that emits an add, subtract, multiply, divide, compare or
    conversion instruction and returns a handle to its result, and the
    module as the container that owns the functions.  The builder the
    program declares is [IRBuilder<>], whose folder computes a request
    on constant operands instead of inserting it.  Accordingly each
    [Create...] call below returns the folded constant when its operands
    are constants, and otherwise appends the instruction it names to the
    block at the insertion point and returns that instruction.

    A [Function*] is represented by the function's name, under which the
    module's symbol table holds it; a [BasicBlock*] by the function name
    and the block's position in it. *)

Definition getFunction (Nm : string) (M : Module) : option Function :=
  List.find (fun F => String.eqb (fn_name F) Nm) M.

(** [Function::Create(FT, Function::ExternalLinkage, Name, TheModule.get())]
    followed by the naming of the arguments.  The program creates a
    function only after [getFunction] has found none of that name. *)
Definition Function_Create (Nm : string) (ArgNames : list string) (st : State)
  : string * State :=
  (Nm, set_TheModule (TheModule st ++ [mkFunction Nm ArgNames []]) st).

Definition update_function (Nm : string) (f : Function -> Function) (M : Module)
  : Module :=
  List.map (fun F => if String.eqb (fn_name F) Nm then f F else F) M.

(** [BasicBlock::Create] with the function as parent: a new block at
    the end of the function. *)
Definition BasicBlock_Create (Nm : string) (TheFunction : string) (st : State)
  : (string * nat) * State :=
  let idx := match getFunction TheFunction (TheModule st) with
             | Some F => length (fn_blocks F)
             | None => O
             end in
  ((TheFunction, idx),
   set_TheModule
     (update_function TheFunction
        (fun F => mkFunction (fn_name F) (fn_args F)
                    (fn_blocks F ++ [mkBasicBlock Nm []]))
        (TheModule st)) st).

Definition SetInsertPoint (BB : string * nat) (st : State) : State :=
  set_Builder (Some BB) st.

(** The builder's insertion: the instruction goes to the end of the
    block at the insertion point. *)
Definition Insert (I : Value) (st : State) : State :=
  match Builder st with
  | None => st
  | Some (fname, blk) =>
      set_TheModule
        (update_function fname
           (fun F => mkFunction (fn_name F) (fn_args F)
                       (alter (fun bb => mkBasicBlock (bb_name bb) (bb_insts bb ++ [I]))
                              blk (fn_blocks F)))
           (TheModule st)) st
  end.

(** What the folder computes for a binary operation and for a
    comparison of two [double] constants. *)
Definition fold_binop (Opc : BinaryOps) (a b : double) : double :=
  match Opc with
  | FAdd => fold_fadd a b
  | FSub => fold_fsub a b
  | FMul => fold_fmul a b
  | FDiv => fold_fdiv a b
  end.

Definition fold_fcmp (P : Predicate) (a b : double) : bool :=
  match P with
  | FCMP_ULT => fold_ult a b
  | FCMP_UGT => fold_ugt a b
  | FCMP_UEQ => fold_ueq a b
  end.

Definition CreateBinOp (Opc : BinaryOps) (L R : Value) (Nm : string) (st : State)
  : Value * State :=
  match L, R with
  | ConstantFP a, ConstantFP b => (ConstantFP (fold_binop Opc a b), st)
  | _, _ => let I := BinaryOperator Opc L R Nm in (I, Insert I st)
  end.

Definition CreateFAdd := CreateBinOp FAdd.
Definition CreateFSub := CreateBinOp FSub.
Definition CreateFMul := CreateBinOp FMul.
Definition CreateFDiv := CreateBinOp FDiv.

Definition CreateFCmp (P : Predicate) (L R : Value) (Nm : string) (st : State)
  : Value * State :=
  match L, R with
  | ConstantFP a, ConstantFP b => (ConstantInt (fold_fcmp P a b), st)
  | _, _ => let I := FCmpInst P L R Nm in (I, Insert I st)
  end.

Definition CreateFCmpULT := CreateFCmp FCMP_ULT.
Definition CreateFCmpUGT := CreateFCmp FCMP_UGT.
Definition CreateFCmpUEQ := CreateFCmp FCMP_UEQ.

Definition CreateUIToFP (V : Value) (DestTy : IRType) (Nm : string) (st : State)
  : Value * State :=
  match V, DestTy with
  | ConstantInt c, DoubleTy => (ConstantFP (fold_uitofp c), st)
  | _, _ => let I := UIToFPInst V DestTy Nm in (I, Insert I st)
  end.

Definition CreateRet (V : Value) (st : State) : State :=
  Insert (ReturnInst V) st.

(** [F->eraseFromParent()]: the function leaves the module.  Names are
    unique in a module, so removing by name removes that one function. *)
Definition eraseFromParent (TheFunction : string) (st : State) : State :=
  set_TheModule
    (List.filter (fun F => negb (String.eqb (fn_name F) TheFunction)) (TheModule st))
    st.

(** ** Code generation *)

Definition some_value (r : Value * State) : option Value * State :=
  (Some (fst r), snd r).

(** [NumberExprAST::codegen] and [BinaryExprAST::codegen].  Both
    operands are generated before either result is tested. *)
Fixpoint ExprAST_codegen (e : ExprAST) (st : State) : option Value * State :=
  match e with
  | NumberExprAST Val => (Some (ConstantFP Val), st)
  | BinaryExprAST Op LHS RHS =>
      let '(L, st1) := ExprAST_codegen LHS st in
      let '(R, st2) := ExprAST_codegen RHS st1 in
      match L, R with
      | Some L, Some R =>
          if Op =? ch "+" then some_value (CreateFAdd L R "addtmp" st2)
          else if Op =? ch "-" then some_value (CreateFSub L R "subtmp" st2)
          else if Op =? ch "*" then some_value (CreateFMul L R "multmp" st2)
          else if Op =? ch "/" then some_value (CreateFDiv L R "divtmp" st2)
          else if Op =? ch "<" then
            let '(L', st3) := CreateFCmpULT L R "cmptmp" st2 in
            some_value (CreateUIToFP L' DoubleTy "booltmp" st3)
          else if Op =? ch ">" then
            let '(L', st3) := CreateFCmpUGT L R "cmptmp" st2 in
            some_value (CreateUIToFP L' DoubleTy "booltmp" st3)
          else if Op =? ch "=" then
            let '(L', st3) := CreateFCmpUEQ L R "cmptmp" st2 in
            some_value (CreateUIToFP L' DoubleTy "booltmp" st3)
          else (None, LogError "invalid binary operator" st2)
      | _, _ => (None, st2)
      end
  end.

(** [PrototypeAST::codegen].  It never returns a null pointer. *)
Definition PrototypeAST_codegen (P : PrototypeAST) (st : State) : string * State :=
  Function_Create (Name P) (Args P) st.

(** [for (auto &Arg : TheFunction->args())
       NamedValues[string(Arg.getName())] = &Arg;] *)
Definition record_args (ArgNames : list string) (m : gmap string Value)
  : gmap string Value :=
  foldl (fun m ia => <[ia.2 := Argument ia.1 ia.2]> m) m
        (imap (fun i a => (i, a)) ArgNames).

(** The part of [FunctionAST::codegen] before the body is generated:
    find or create the function, open its entry block, reset
    [NamedValues]. *)
Definition FunctionAST_codegen_entry (F : FunctionAST) (st : State) : string * State :=
  let '(TheFunction, st1) :=
    match getFunction (Name (Proto F)) (TheModule st) with
    | Some _ => (Name (Proto F), st)
    | None => PrototypeAST_codegen (Proto F) st
    end in
  let '(BB, st2) := BasicBlock_Create "entry" TheFunction st1 in
  let st3 := SetInsertPoint BB st2 in
  let st4 := set_NamedValues ∅ st3 in
  let ArgNames := match getFunction TheFunction (TheModule st4) with
                  | Some Fn => fn_args Fn
                  | None => []
                  end in
  (TheFunction, set_NamedValues (record_args ArgNames (NamedValues st4)) st4).

(** [FunctionAST::codegen].  [verifyFunction] only reads the function
    and its result is discarded, so it leaves no trace in the state. *)
Definition FunctionAST_codegen (F : FunctionAST) (st : State) : option string * State :=
  let '(TheFunction, st1) := FunctionAST_codegen_entry F st in
  match ExprAST_codegen (Body F) st1 with
  | (Some RetVal, st2) => (Some TheFunction, CreateRet RetVal st2)
  | (None, st2) => (None, eraseFromParent TheFunction st2)
  end.

(** ** Driver *)

(** [InitializeModule]: a fresh context, an empty module named "jit", a
    builder with no insertion point. *)
Definition InitializeModule (st : State) : State :=
  set_Builder None (set_TheModule [] st).

Definition HandleTopLevelExpression (fuel : nat) (st : State) : Result unit :=
  match ParseTopLevelExpr fuel st with
  | OutOfFuel => OutOfFuel
  | Done (Some FnAST) st1 =>
      match FunctionAST_codegen FnAST st1 with
      | (Some FnIR, st2) =>
          let st3 := emit (Text ("Generated IR and result:" +:+ LF)) st2 in
          let st4 := emit (PrintFunction (getFunction FnIR (TheModule st3))) st3 in
          let st5 := emit (Text LF) st4 in
          Done tt (eraseFromParent FnIR st5)
      | (None, st2) =>
          (* Skip token for error recovery. *)
          let '(_, st3) := getNextToken st2 in
          Done tt st3
      end
  | Done None st1 => Done tt st1
  end.

(** One call of [MainLoop fuel] is one iteration of the [while (true)]. *)
Fixpoint MainLoop (fuel : nat) (st : State) : Result unit :=
  match fuel with
  | O => OutOfFuel
  | S fuel =>
      let st1 := emit (Text "ready> ") st in
      if CurTok st1 =? tok_eof then Done tt st1
      else if (CurTok st1 =? tok_error) || (CurTok st1 =? ch ";") then
        let '(_, st2) := getNextToken st1 in
        MainLoop fuel st2
      else
        match HandleTopLevelExpression fuel st1 with
        | OutOfFuel => OutOfFuel
        | Done _ st2 => MainLoop fuel st2
        end
  end.

(** The statics as the C++ runtime initialises them, with [input] on
    standard input. *)
Definition startup (input : string) : State :=
  mkState input (ch " ") double_zero 0 ∅ [] None ∅ [].

(** [BinopPrecedence[k] = v;] *)
Definition set_precedence (k v : Z) (st : State) : State :=
  set_BinopPrecedence (<[k := v]> (BinopPrecedence st)) st.

Definition install_operators (st : State) : State :=
  let st := set_precedence (ch "<") 10 st in
  let st := set_precedence (ch ">") 10 st in
  let st := set_precedence (ch "=") 10 st in
  let st := set_precedence (ch "+") 20 st in
  let st := set_precedence (ch "-") 20 st in
  let st := set_precedence (ch "*") 40 st in
  set_precedence (ch "/") 40 st.

(** The state in which [main] enters [MainLoop]. *)
Definition main_init (input : string) : State :=
  let st := install_operators (startup input) in
  let st := emit (Text "ready> ") st in
  let '(_, st) := getNextToken st in
  InitializeModule st.

(** [main]: the value it returns is the exit status of the process. *)
Definition main (fuel : nat) (input : string) : Result Z :=
  match MainLoop fuel (main_init input) with
  | OutOfFuel => OutOfFuel
  | Done _ st => Done 0 (emit (PrintModule (TheModule st)) st)
  end.

(** * Vocabulary of the statements

    The definitions of this part are not in the source: they name what
    the properties below speak about. *)

(** ** Returning under a bound *)

Definition result_value {A} (r : Result A) : option A :=
  match r with
  | OutOfFuel => None
  | Done a _ => Some a
  end.

(** A call that returns within [n] steps returns the same value and
    state under any larger bound. *)
Definition fuel_stable {A} (f : nat -> State -> Result A) (n : nat) : Prop :=
  forall st a st' m, f n st = Done a st' -> (n <= m)%nat -> f m st = Done a st'.

(** [parses_to input e]: started by [main] on [input], [ParseExpression]
    returns the tree [e], under every bound from some bound on. *)
Definition parses_to (input : string) (e : ExprAST) : Prop :=
  exists n, forall fuel, (n <= fuel)%nat ->
    exists st, ParseExpression fuel (main_init input) = Done (Some e) st.

(** [runs_to input P]: on [input], [main] returns status 0 in a final
    state satisfying [P], under every bound from some bound on. *)
Definition runs_to (input : string) (P : State -> Prop) : Prop :=
  exists n, forall fuel, (n <= fuel)%nat ->
    exists st, main fuel input = Done 0 st /\ P st.

(** ** Operators, trees and inputs *)

(** The precedence [GetTokPrecedence] reports for token [c] under the
    table [main] installs. *)
Definition precedence_of (c : Z) : Z :=
  fst (GetTokPrecedence (set_CurTok c (main_init ""))).

(** The operators [main] gives a precedence. *)
Definition operators : list Z :=
  [ch "<"; ch ">"; ch "="; ch "+"; ch "-"; ch "*"; ch "/"].

(** Readable trees, inputs and outputs. *)
Definition Num (lexeme : string) : ExprAST := NumberExprAST (strtod lexeme).
Definition Bin (Op : Z) (L R : ExprAST) : ExprAST := BinaryExprAST Op L R.
Definition sym (c : Z) : string := String (ascii_of_int c) EmptyString.

(** The printing of the wrapper function of a top-level expression when
    its entry block holds the instructions [insts]. *)
Definition printed_anon_expr (insts : list Value) : Output :=
  PrintFunction (Some (mkFunction "__anon_expr" [] [mkBasicBlock "entry" insts])).


(** ** Tokens the driver cannot get past

    [MainLoop] dispatches on [CurTok]: end of input stops it, a lex-error
    token or a [';'] is skipped, anything else goes to
    [HandleTopLevelExpression].  [starts_nothing t] holds of the tokens of
    that last group that [ParsePrimary] rejects without reading on. *)
Definition starts_nothing (t : Z) : bool :=
  negb (t =? tok_eof) && negb (t =? tok_error) && negb (t =? ch ";")
  && negb (t =? tok_number) && negb (t =? ch "(").

(** ** The module seen from the builder *)


(** The functions of a module other than the one named [Nm]. *)
Definition others (Nm : string) (M : Module) : Module :=
  List.filter (fun F => negb (String.eqb (fn_name F) Nm)) M.

(** [confined Nm st st']: from [st] to [st'] the builder has not moved
    and no function other than [Nm] has changed. *)
Definition confined (Nm : string) (st st' : State) : Prop :=
  Builder st' = Builder st /\
  others Nm (TheModule st') = others Nm (TheModule st).

(** ** Trees the code generator accepts *)

(** The operators [BinaryExprAST::codegen] has a case for. *)
Definition has_codegen_case (Op : Z) : bool :=
  (Op =? ch "+") || (Op =? ch "-") || (Op =? ch "*") || (Op =? ch "/")
  || (Op =? ch "<") || (Op =? ch ">") || (Op =? ch "=").

Fixpoint codegen_total (e : ExprAST) : bool :=
  match e with
  | NumberExprAST _ => true
  | BinaryExprAST Op LHS RHS =>
      has_codegen_case Op && codegen_total LHS && codegen_total RHS
  end.

(** The precedence table holds a positive precedence for the operators
    of [main] only. *)
Definition startup_operators_only (tbl : gmap Z Z) : Prop :=
  forall k v, tbl !! k = Some v -> 0 < v -> k ∈ operators.

Definition table_ok (st : State) : Prop :=
  startup_operators_only (BinopPrecedence st).

Definition tree_ok (r : option ExprAST) : Prop :=
  forall e, r = Some e -> codegen_total e = true.

(** ** Characters, tokens and the unread input *)

(** The characters of a numeric run: the test of the [do ... while] of
    [gettok]. *)
Definition isnumeric (c : Z) : bool := isdigit c || (c =? ch ".").

Fixpoint all_chars (p : Z -> bool) (s : string) : bool :=
  match s with
  | EmptyString => true
  | String a rest => p (int_of_ascii a) && all_chars p rest
  end.

(** What [getchar] can return. *)
Definition valid_char (c : Z) : Prop := c = EOF \/ 0 <= c <= 255.

(** The characters the lexer has not turned into a token yet: the one
    held in [LastChar], unless it is [EOF], and the unread input. *)
Definition unread_chars (c : Z) (input : string) : nat :=
  (String.length input + if (c =? EOF)%Z then 0 else 1)%nat.

Definition unread (st : State) : nat := unread_chars (LastChar st) (stdin st).

(** The same, counting the token in [CurTok] unless it is the
    end-of-input token: what the parser has still to look at. *)
Definition pending (st : State) : nat :=
  (unread st + if (CurTok st =? tok_eof)%Z then 0 else 1)%nat.

(** [returns_within f k st]: under the bound [k], the call of [f] in
    state [st] returns, and leaves no more to look at than there was. *)
Definition returns_within {A} (f : nat -> State -> Result A) (k : nat) (st : State)
  : Prop :=
  exists a st', f k st = Done a st' /\ (pending st' <= pending st)%nat.

(** ** What code generation amounts to *)

(** The constant a node folds to, from the constants of its operands:
    none for an operator without a case. *)
Definition fold_node (Op : Z) (a b : double) : option double :=
  if Op =? ch "+" then Some (fold_binop FAdd a b)
  else if Op =? ch "-" then Some (fold_binop FSub a b)
  else if Op =? ch "*" then Some (fold_binop FMul a b)
  else if Op =? ch "/" then Some (fold_binop FDiv a b)
  else if Op =? ch "<" then Some (fold_uitofp (fold_fcmp FCMP_ULT a b))
  else if Op =? ch ">" then Some (fold_uitofp (fold_fcmp FCMP_UGT a b))
  else if Op =? ch "=" then Some (fold_uitofp (fold_fcmp FCMP_UEQ a b))
  else None.

(** The constant of a whole tree: that of the left operand, that of the
    right one, then the node's. *)
Fixpoint constant_of (e : ExprAST) : option double :=
  match e with
  | NumberExprAST Val => Some Val
  | BinaryExprAST Op LHS RHS =>
      match constant_of LHS, constant_of RHS with
      | Some a, Some b => fold_node Op a b
      | _, _ => None
      end
  end.


(** Writing a sequence of outputs, first to last. *)
Definition emit_all (l : list Output) (st : State) : State :=
  foldl (fun s o => emit o s) st l.

(** The arguments and blocks [FunctionAST::codegen] starts from: those
    of the function of that name when the module has one, else those of
    a fresh function made from the prototype. *)
Definition function_before (P : PrototypeAST) (M : Module) : list string * list BasicBlock :=
  match getFunction (Name P) M with
  | Some Fn => (fn_args Fn, fn_blocks Fn)
  | None => (Args P, [])
  end.

(** [open_block Nm args blocks insts st]: the builder points at the
    last block of the function [Nm], a block named "entry" that holds
    [insts] and comes after [blocks]. *)
Definition open_block (Nm : string) (args : list string) (blocks : list BasicBlock)
    (insts : list Value) (st : State) : Prop :=
  Builder st = Some (Nm, length blocks) /\
  getFunction Nm (TheModule st)
  = Some (mkFunction Nm args (blocks ++ [mkBasicBlock "entry" insts])).

(** ** What is written to the error stream *)

Definition lexer_message : Output :=
  Text ("Only numeric literals and operators are permitted." +:+ LF).

Definition unexpected_token_message : Output :=
  Text ("Error: unexpected token when expecting an expression" +:+ LF).

Definition expected_paren_message : Output :=
  Text ("Error: expected ')'" +:+ LF).

Definition invalid_operator_message : Output :=
  Text ("Error: invalid binary operator" +:+ LF).

Definition parser_messages : list Output :=
  [lexer_message; unexpected_token_message; expected_paren_message].

(** [parser_only st st']: from [st] to [st'] the module, the builder and
    the symbol table are untouched, and what has been written is made of
    the messages of the lexer and of the parser. *)
Definition parser_only (st st' : State) : Prop :=
  TheModule st' = TheModule st /\
  Builder st' = Builder st /\
  NamedValues st' = NamedValues st /\
  exists l, stderr st' = stderr st ++ l /\ forall o, o ∈ l -> o ∈ parser_messages.

(** What [MainLoop] keeps true of the state it runs in. *)
Definition driver_ok (st : State) : Prop :=
  table_ok st /\ TheModule st = [] /\ invalid_operator_message ∉ stderr st.

(** * Properties *)

(** ** One-step equations of the parser *)

Lemma ParseExpression_S fuel st :
  ParseExpression (S fuel) st =
  match ParsePrimary fuel st with
  | OutOfFuel => OutOfFuel
  | Done None st1 => Done None st1
  | Done (Some LHS) st1 => ParseBinOpRHS fuel 0 LHS st1
  end.
Proof. reflexivity. Qed.

Lemma ParsePrimary_S fuel st :
  ParsePrimary (S fuel) st =
  if CurTok st =? tok_number then
    let '(r, st1) := ParseNumberExpr st in Done r st1
  else if CurTok st =? ch "(" then ParseParenExpr fuel st
  else Done None (LogError "unexpected token when expecting an expression" st).
Proof. reflexivity. Qed.

Lemma ParseParenExpr_S fuel st :
  ParseParenExpr (S fuel) st =
  let '(_, st1) := getNextToken st in
  match ParseExpression fuel st1 with
  | OutOfFuel => OutOfFuel
  | Done None st2 => Done None st2
  | Done (Some V) st2 =>
      if negb (CurTok st2 =? ch ")") then Done None (LogError "expected ')'" st2)
      else let '(_, st3) := getNextToken st2 in Done (Some V) st3
  end.
Proof. reflexivity. Qed.

Lemma ParseBinOpRHS_S fuel ExprPrec LHS st :
  ParseBinOpRHS (S fuel) ExprPrec LHS st =
  let '(TokPrec, st1) := GetTokPrecedence st in
  if TokPrec <? ExprPrec then Done (Some LHS) st1
  else
    let BinOp := CurTok st1 in
    let '(_, st2) := getNextToken st1 in
    match ParsePrimary fuel st2 with
    | OutOfFuel => OutOfFuel
    | Done None st3 => Done None st3
    | Done (Some RHS) st3 =>
        let '(NextPrec, st4) := GetTokPrecedence st3 in
        if TokPrec <? NextPrec then
          match ParseBinOpRHS fuel (TokPrec + 1) RHS st4 with
          | OutOfFuel => OutOfFuel
          | Done None st5 => Done None st5
          | Done (Some RHS') st5 =>
              ParseBinOpRHS fuel ExprPrec
                (BinaryExprAST (char_of_int BinOp) LHS RHS') st5
          end
        else
          ParseBinOpRHS fuel ExprPrec
            (BinaryExprAST (char_of_int BinOp) LHS RHS) st4
    end.
Proof. reflexivity. Qed.

Lemma MainLoop_S fuel st :
  MainLoop (S fuel) st =
  let st1 := emit (Text "ready> ") st in
  if CurTok st1 =? tok_eof then Done tt st1
  else if (CurTok st1 =? tok_error) || (CurTok st1 =? ch ";") then
    let '(_, st2) := getNextToken st1 in MainLoop fuel st2
  else
    match HandleTopLevelExpression fuel st1 with
    | OutOfFuel => OutOfFuel
    | Done _ st2 => MainLoop fuel st2
    end.
Proof. reflexivity. Qed.

(** ** More fuel never changes a result *)

Lemma parser_fuel_stable n :
  fuel_stable ParseExpression n /\
  fuel_stable ParsePrimary n /\
  fuel_stable ParseParenExpr n /\
  (forall p l, fuel_stable (fun k => ParseBinOpRHS k p l) n).
Proof.
  induction n as [|n (IHe & IHp & IHq & IHb)].
  - repeat split; repeat intro; discriminate.
  - repeat split.
    + intros st a st' [|m] H Hle; [lia|].
      rewrite ParseExpression_S in *.
      destruct (ParsePrimary n st) as [|r s1] eqn:E; [discriminate|].
      rewrite (IHp _ _ _ m E) by lia.
      destruct r; [|exact H]. apply (IHb 0 e); [exact H|lia].
    + intros st a st' [|m] H Hle; [lia|].
      rewrite ParsePrimary_S in *.
      destruct (CurTok st =? tok_number); [exact H|].
      destruct (CurTok st =? ch "("); [|exact H].
      apply IHq; [exact H|lia].
    + intros st a st' [|m] H Hle; [lia|].
      rewrite ParseParenExpr_S in *.
      destruct (getNextToken st) as [t s1].
      destruct (ParseExpression n s1) as [|r s2] eqn:E; [discriminate|].
      rewrite (IHe _ _ _ m E) by lia. exact H.
    + intros p l st a st' [|m] H Hle; [lia|]. cbv beta in *.
      rewrite ParseBinOpRHS_S in *.
      destruct (GetTokPrecedence st) as [TokPrec s1].
      destruct (TokPrec <? p); [exact H|]. cbv zeta in *.
      destruct (getNextToken s1) as [t s2].
      destruct (ParsePrimary n s2) as [|r s3] eqn:E; [discriminate|].
      rewrite (IHp _ _ _ m E) by lia.
      destruct r as [RHS|]; [|exact H].
      destruct (GetTokPrecedence s3) as [NextPrec s4].
      destruct (TokPrec <? NextPrec).
      * destruct (ParseBinOpRHS n (TokPrec + 1) RHS s4) as [|r' s5] eqn:E'; [discriminate|].
        rewrite (IHb _ _ _ _ _ m E') by lia.
        destruct r' as [RHS'|]; [|exact H].
        apply (IHb p _ _ _ _ m H). lia.
      * apply (IHb p _ _ _ _ m H). lia.
Qed.

Lemma ParseExpression_fuel n m st a st' :
  ParseExpression n st = Done a st' -> (n <= m)%nat ->
  ParseExpression m st = Done a st'.
Proof. apply parser_fuel_stable. Qed.

Lemma ParseTopLevelExpr_fuel n m st a st' :
  ParseTopLevelExpr n st = Done a st' -> (n <= m)%nat ->
  ParseTopLevelExpr m st = Done a st'.
Proof.
  unfold ParseTopLevelExpr. intros H Hle.
  destruct (ParseExpression n st) as [|r s1] eqn:E; [discriminate|].
  rewrite (ParseExpression_fuel _ _ _ _ _ E Hle). exact H.
Qed.

Lemma HandleTopLevelExpression_fuel n m st a st' :
  HandleTopLevelExpression n st = Done a st' -> (n <= m)%nat ->
  HandleTopLevelExpression m st = Done a st'.
Proof.
  unfold HandleTopLevelExpression. intros H Hle.
  destruct (ParseTopLevelExpr n st) as [|r s1] eqn:E; [discriminate|].
  rewrite (ParseTopLevelExpr_fuel _ _ _ _ _ E Hle). exact H.
Qed.

Lemma MainLoop_fuel n : fuel_stable MainLoop n.
Proof.
  induction n as [|n IH]; intros st a st' m H Hle; [discriminate|].
  destruct m as [|m]; [lia|].
  rewrite MainLoop_S in *. cbv zeta in *.
  destruct (CurTok (emit (Text "ready> ") st) =? tok_eof); [exact H|].
  destruct ((CurTok (emit (Text "ready> ") st) =? tok_error)
            || (CurTok (emit (Text "ready> ") st) =? ch ";")).
  - destruct (getNextToken (emit (Text "ready> ") st)) as [t s2].
    apply IH; [exact H|lia].
  - destruct (HandleTopLevelExpression n (emit (Text "ready> ") st)) as [|r s2] eqn:E;
      [discriminate|].
    rewrite (HandleTopLevelExpression_fuel _ m _ _ _ E) by lia.
    apply IH; [exact H|lia].
Qed.

Lemma main_fuel n m input rc st' :
  main n input = Done rc st' -> (n <= m)%nat -> main m input = Done rc st'.
Proof.
  unfold main. intros H Hle.
  destruct (MainLoop n (main_init input)) as [|r s1] eqn:E; [discriminate|].
  rewrite (MainLoop_fuel _ _ _ _ m E Hle). exact H.
Qed.

(** ** Whole runs by evaluation *)

Lemma runs_to_intro n input (P : State -> Prop) :
  (exists st, main n input = Done 0 st /\ P st) -> runs_to input P.
Proof.
  intros (st & Hrun & HP). exists n. intros fuel Hle.
  exists st. split; [|exact HP]. exact (main_fuel _ _ _ _ _ Hrun Hle).
Qed.

Ltac by_running :=
  apply (runs_to_intro 24); vm_compute;
  eexists; split; [reflexivity|repeat (split; [reflexivity|]); reflexivity].

(** ** The driver on a token that starts no unit *)

Lemma starts_nothing_tests t :
  starts_nothing t = true ->
  (t =? tok_eof) = false /\ (t =? tok_error) = false /\ (t =? ch ";") = false /\
  (t =? tok_number) = false /\ (t =? ch "(") = false.
Proof.
  unfold starts_nothing. rewrite !andb_true_iff, !negb_true_iff. tauto.
Qed.

Lemma ParsePrimary_rejects fuel st :
  starts_nothing (CurTok st) = true ->
  ParsePrimary (S fuel) st =
  Done None (LogError "unexpected token when expecting an expression" st).
Proof.
  intros H. apply starts_nothing_tests in H as (_ & _ & _ & Hn & Hp).
  rewrite ParsePrimary_S, Hn, Hp. reflexivity.
Qed.

(** When the parser reports failure, [HandleTopLevelExpression] returns
    at once: the state it hands back is the one the parser left. *)
Lemma HandleTopLevelExpression_parse_failure fuel st st1 :
  ParseTopLevelExpr fuel st = Done None st1 ->
  HandleTopLevelExpression fuel st = Done tt st1.
Proof. unfold HandleTopLevelExpression. intros ->. reflexivity. Qed.

Lemma HandleTopLevelExpression_rejects fuel st :
  starts_nothing (CurTok st) = true ->
  HandleTopLevelExpression (S (S fuel)) st =
  Done tt (LogError "unexpected token when expecting an expression" st).
Proof.
  intros H. apply HandleTopLevelExpression_parse_failure.
  unfold ParseTopLevelExpr.
  rewrite ParseExpression_S, (ParsePrimary_rejects _ _ H). reflexivity.
Qed.

(** With such a token in [CurTok] the loop never gets past it: no bound
    on the number of iterations is enough for [MainLoop] to return. *)
Lemma MainLoop_spins fuel :
  forall st, starts_nothing (CurTok st) = true -> MainLoop fuel st = OutOfFuel.
Proof.
  induction fuel as [|fuel IH]; intros st H; [reflexivity|].
  rewrite MainLoop_S. cbv zeta.
  change (CurTok (emit (Text "ready> ") st)) with (CurTok st).
  destruct (starts_nothing_tests _ H) as (-> & -> & -> & _ & _). cbn [orb].
  destruct fuel as [|[|fuel]]; [reflexivity|reflexivity|].
  rewrite HandleTopLevelExpression_rejects by exact H.
  apply IH. exact H.
Qed.

(** ** Letters in the lexer *)

Lemma getchar_range input :
  fst (getchar input) = EOF \/ 0 <= fst (getchar input).
Proof.
  destruct input as [|a rest]; [left; reflexivity|right].
  cbn. unfold int_of_ascii. lia.
Qed.

Lemma gettok_rest_not_tok_error st :
  LastChar st = EOF \/ 0 <= LastChar st -> fst (gettok_rest st) <> tok_error.
Proof.
  intros Hc. unfold gettok_rest.
  destruct (isdigit (LastChar st) || (LastChar st =? ch ".")).
  - destruct (number_run _ _ _) as [[NumStr c'] input']. discriminate.
  - destruct (Z.eqb_spec (LastChar st) EOF) as [He|Hne]; [discriminate|].
    destruct (getchar (stdin st)) as [c' input']. cbn [fst].
    unfold tok_error. destruct Hc; [contradiction|lia].
Qed.

(** When the first character after the white space is a letter,
    [gettok] returns the lex-error token exactly when the character
    after the letter is a letter or a digit. *)
Lemma gettok_letter st c input :
  skip_space (LastChar st) (stdin st) = (c, input) ->
  isalpha c = true ->
  (fst (gettok st) = tok_error <-> isalnum (fst (getchar input)) = true).
Proof.
  intros Hskip Halpha. unfold gettok. rewrite Hskip.
  cbn [LastChar set_input stdin emit]. rewrite Halpha.
  pose proof (getchar_range input) as Hr.
  destruct (getchar input) as [c' input']. cbn [fst] in *.
  destruct (isalnum c') eqn:Ha.
  - split; reflexivity.
  - split; [|discriminate]. intros H. exfalso.
    revert H. apply gettok_rest_not_tok_error. exact Hr.
Qed.

(** ** Error recovery in the driver *)

(** C1.  The claim is that after any lexical, syntactic or codegen error
    the driver drops one token and goes on with the next unit.  Whenever
    the parser fails, [HandleTopLevelExpression] returns in the very
    state the parser left: it reads no token.  On the input [") 1;"] the
    first unit is a syntax error at [')'].  [HandleTopLevelExpression]
    returns with [')'] still in [CurTok] and the lexer where it was
    ([LastChar] and the unread input unchanged): no token has been
    discarded.  The loop therefore meets the same token again, for ever,
    and the unit [1;] that follows is never read. *)
Theorem syntax_error_discards_no_token :
  let st := emit (Text "ready> ") (main_init ") 1;") in
  (forall fuel s s1,
      ParseTopLevelExpr fuel s = Done None s1 ->
      HandleTopLevelExpression fuel s = Done tt s1) /\
  CurTok st = ch ")" /\
  (forall fuel, exists st',
      HandleTopLevelExpression (S (S fuel)) st = Done tt st' /\
      CurTok st' = ch ")" /\
      LastChar st' = LastChar st /\
      stdin st' = stdin st /\
      stdin st' = "1;") /\
  (forall fuel, MainLoop fuel (main_init ") 1;") = OutOfFuel).
Proof.
  cbv zeta. split; [exact HandleTopLevelExpression_parse_failure|].
  split; [vm_compute; reflexivity|]. split.
  - intros fuel. eexists. split.
    + apply HandleTopLevelExpression_rejects. vm_compute; reflexivity.
    + split; [|split; [|split]]; vm_compute; reflexivity.
  - intros fuel. apply MainLoop_spins. vm_compute; reflexivity.
Qed.

(** C2.  The claim is that a letter always makes [gettok] return the
    lex-error token, and that [a + 1] is reported and skipped.  A letter
    makes [gettok] return the lex-error token exactly when a letter or a
    digit follows it.  On [a + 1] the letter is followed by a space, so
    the [while] that holds the [return tok_error] does not run its body:
    [gettok] prints its message and then returns the space itself (32)
    as a token, leaving ['+'] in [LastChar].  The driver takes 32 for
    the start of an expression, the parser rejects it, and the loop
    never advances. *)
Theorem letter_before_space_is_not_tok_error :
  let st := emit (Text "ready> ") (install_operators (startup "a + 1")) in
  (forall s c input,
      skip_space (LastChar s) (stdin s) = (c, input) ->
      isalpha c = true ->
      (fst (gettok s) = tok_error <-> isalnum (fst (getchar input)) = true)) /\
  gettok st =
    (32, set_input (ch "+") " 1"
           (emit (Text ("Only numeric literals and operators are permitted." +:+ LF)) st)) /\
  fst (gettok st) <> tok_error /\
  CurTok (main_init "a + 1") = 32 /\
  (forall fuel, main fuel "a + 1" = OutOfFuel).
Proof.
  cbv zeta. split; [exact gettok_letter|].
  split; [vm_compute; reflexivity|].
  split; [vm_compute; discriminate|]. split; [vm_compute; reflexivity|].
  intros fuel. unfold main. rewrite MainLoop_spins; [reflexivity|].
  vm_compute; reflexivity.
Qed.

(** C9.  The claim is that the driver loop ends and the process exits
    with status 0 on every finite input.  Whenever [main] returns, it
    returns 0.  It does return on the empty input, which prints the two
    prompts and the empty module, and on [ab; (1 + 2], which holds a
    lexical and a syntax error.  It does not on the one-character input
    [")"]: the syntax error leaves [')'] in [CurTok], the loop never
    reaches the end of the input, and [main] never returns. *)
Theorem main_does_not_return_on_stray_paren :
  (forall fuel input rc st, main fuel input = Done rc st -> rc = 0) /\
  (forall fuel, exists st,
      main (S fuel) "" = Done 0 st /\
      stderr st = [Text "ready> "; Text "ready> "; PrintModule []] /\
      TheModule st = []) /\
  runs_to "ab; (1 + 2" (fun final => TheModule final = []) /\
  (forall fuel, main fuel ")" = OutOfFuel).
Proof.
  split; [|split; [|split]].
  - intros fuel input rc st. unfold main.
    destruct (MainLoop fuel (main_init input)); [discriminate|].
    intros [= <- _]. reflexivity.
  - intros fuel.
    assert (exists st, main 1 "" = Done 0 st /\
              stderr st = [Text "ready> "; Text "ready> "; PrintModule []] /\
              TheModule st = []) as (st & Hrun & Hout).
    { vm_compute. eexists. split; [reflexivity|]. split; reflexivity. }
    exists st. split; [|exact Hout].
    apply (main_fuel 1); [exact Hrun|lia].
  - by_running.
  - intros fuel. unfold main. rewrite MainLoop_spins; [reflexivity|].
    vm_compute; reflexivity.
Qed.

(** ** The three decisions of the parser

    They hold in every state and under every precedence table. *)

(** The operator after the right operand does not bind tighter than the
    current one (equal precedence included): the node for the current
    operator is built at once and is the left operand of what follows. *)
Lemma ParseBinOpRHS_builds_left fuel ExprPrec LHS st TokPrec st1 t st2 RHS st3
      NextPrec st4 :
  GetTokPrecedence st = (TokPrec, st1) ->
  ExprPrec <= TokPrec ->
  getNextToken st1 = (t, st2) ->
  ParsePrimary fuel st2 = Done (Some RHS) st3 ->
  GetTokPrecedence st3 = (NextPrec, st4) ->
  NextPrec <= TokPrec ->
  ParseBinOpRHS (S fuel) ExprPrec LHS st =
  ParseBinOpRHS fuel ExprPrec (BinaryExprAST (char_of_int (CurTok st1)) LHS RHS) st4.
Proof.
  intros Hp Hge Hn Hr Hq Hle. rewrite ParseBinOpRHS_S, Hp.
  destruct (Z.ltb_spec TokPrec ExprPrec); [lia|]. cbv zeta.
  rewrite Hn, Hr, Hq.
  destruct (Z.ltb_spec TokPrec NextPrec); [lia|]. reflexivity.
Qed.

(** The operator after the right operand binds tighter: it, and what
    follows at that strength, is parsed first, with the right operand as
    its left operand, and the result is the right operand of the current
    operator. *)
Lemma ParseBinOpRHS_extends_right fuel ExprPrec LHS st TokPrec st1 t st2 RHS st3
      NextPrec st4 RHS' st5 :
  GetTokPrecedence st = (TokPrec, st1) ->
  ExprPrec <= TokPrec ->
  getNextToken st1 = (t, st2) ->
  ParsePrimary fuel st2 = Done (Some RHS) st3 ->
  GetTokPrecedence st3 = (NextPrec, st4) ->
  TokPrec < NextPrec ->
  ParseBinOpRHS fuel (TokPrec + 1) RHS st4 = Done (Some RHS') st5 ->
  ParseBinOpRHS (S fuel) ExprPrec LHS st =
  ParseBinOpRHS fuel ExprPrec (BinaryExprAST (char_of_int (CurTok st1)) LHS RHS') st5.
Proof.
  intros Hp Hge Hn Hr Hq Hlt Hrec. rewrite ParseBinOpRHS_S, Hp.
  destruct (Z.ltb_spec TokPrec ExprPrec); [lia|]. cbv zeta.
  rewrite Hn, Hr, Hq.
  destruct (Z.ltb_spec TokPrec NextPrec); [|lia]. rewrite Hrec. reflexivity.
Qed.

(** A group in parentheses is one primary: whatever expression stands
    between ['('] and [')'] is returned whole as an operand. *)
Lemma ParsePrimary_group fuel st t st1 V st2 t' st3 :
  CurTok st = ch "(" ->
  getNextToken st = (t, st1) ->
  ParseExpression fuel st1 = Done (Some V) st2 ->
  CurTok st2 = ch ")" ->
  getNextToken st2 = (t', st3) ->
  ParsePrimary (S (S fuel)) st = Done (Some V) st3.
Proof.
  intros Hc Hn He Hc2 Hn2. rewrite ParsePrimary_S, Hc.
  change (ch "(" =? tok_number) with false.
  change (ch "(" =? ch "(") with true. cbv iota.
  rewrite ParseParenExpr_S, Hn, He, Hc2.
  change (negb (ch ")" =? ch ")")) with false. cbv iota.
  rewrite Hn2. reflexivity.
Qed.

(** ** What the parser builds *)

Lemma parses_to_intro n input e :
  result_value (ParseExpression n (main_init input)) = Some (Some e) ->
  parses_to input e.
Proof.
  intros H. exists n. intros fuel Hle.
  destruct (ParseExpression n (main_init input)) as [|r st] eqn:E; [discriminate|].
  injection H as ->. exists st. exact (ParseExpression_fuel _ _ _ _ _ E Hle).
Qed.

Ltac each_operator H :=
  unfold operators in H;
  repeat (apply elem_of_cons in H as [->|H]);
  [..|apply elem_of_nil in H; destruct H].

Ltac by_parsing :=
  apply (parses_to_intro 24); vm_compute; reflexivity.


(** C3.  Under the table installed by [main], ['*'] and ['/'] have
    precedence 40, ['+'] and ['-'] 20, and ['<'], ['>'], ['='] 10.  An
    operator of higher precedence takes its operands first, on either
    side of one of lower precedence: in any state, when the operator
    after the right operand binds tighter than the current one, the
    right operand is first extended by [ParseBinOpRHS] at that strength.
    In particular [2 + 25 * 2 - 8],
    at the end of the input or before a [';'], parses to
    [(2 + (25 * 2)) - 8]: the multiplication is the right operand of the
    addition, whose result is the left operand of the subtraction. *)
Theorem precedence_decides_nesting :
  (precedence_of (ch "*") = 40 /\ precedence_of (ch "/") = 40 /\
   precedence_of (ch "+") = 20 /\ precedence_of (ch "-") = 20 /\
   precedence_of (ch "<") = 10 /\ precedence_of (ch ">") = 10 /\
   precedence_of (ch "=") = 10) /\
  (forall fuel ExprPrec LHS st TokPrec st1 t st2 RHS st3 NextPrec st4 RHS' st5,
     GetTokPrecedence st = (TokPrec, st1) ->
     ExprPrec <= TokPrec ->
     getNextToken st1 = (t, st2) ->
     ParsePrimary fuel st2 = Done (Some RHS) st3 ->
     GetTokPrecedence st3 = (NextPrec, st4) ->
     TokPrec < NextPrec ->
     ParseBinOpRHS fuel (TokPrec + 1) RHS st4 = Done (Some RHS') st5 ->
     ParseBinOpRHS (S fuel) ExprPrec LHS st =
     ParseBinOpRHS fuel ExprPrec
       (BinaryExprAST (char_of_int (CurTok st1)) LHS RHS') st5) /\
  (forall lo hi, lo ∈ operators -> hi ∈ operators ->
     (precedence_of lo <? precedence_of hi) = true ->
     parses_to ("2 " +:+ sym lo +:+ " 25 " +:+ sym hi +:+ " 2")
               (Bin lo (Num "2") (Bin hi (Num "25") (Num "2"))) /\
     parses_to ("2 " +:+ sym hi +:+ " 25 " +:+ sym lo +:+ " 2")
               (Bin lo (Bin hi (Num "2") (Num "25")) (Num "2"))) /\
  parses_to "2 + 25 * 2 - 8"
    (Bin (ch "-") (Bin (ch "+") (Num "2") (Bin (ch "*") (Num "25") (Num "2")))
                  (Num "8")) /\
  (forall rest,
     parses_to ("2 + 25 * 2 - 8;" +:+ rest)
       (Bin (ch "-") (Bin (ch "+") (Num "2") (Bin (ch "*") (Num "25") (Num "2")))
                     (Num "8"))).
Proof.
  split; [|split; [|split; [|split]]].
  - vm_compute. repeat split.
  - exact ParseBinOpRHS_extends_right.
  - intros lo hi Hlo Hhi Hlt.
    each_operator Hlo; each_operator Hhi;
      (vm_compute in Hlt; discriminate Hlt) || (split; by_parsing).
  - by_parsing.
  - intros [|a rest]; by_parsing.
Qed.

(** The tree an input parses to is unique. *)
Lemma parses_to_unique input e1 e2 :
  parses_to input e1 -> parses_to input e2 -> e1 = e2.
Proof.
  intros [n1 H1] [n2 H2].
  destruct (H1 (n1 + n2)%nat) as [s1 E1]; [lia|].
  destruct (H2 (n1 + n2)%nat) as [s2 E2]; [lia|].
  congruence.
Qed.

(** C4.  Two operators of equal precedence associate to the left.  In
    any state and under any table, when the operator after the right
    operand does not bind tighter than the current one, the node of the
    current operator is built before the next operator is looked at, and
    is its left operand.  For every pair of operators to which [main]
    gives the same precedence, [8 op1 3 op2 2] parses to the tree whose
    root is [op2] and whose left child is [8 op1 3], which is also the
    tree of the input with that grouping written out in parentheses.
    For [op1 = op2 = '-'] the inputs are [8 - 3 - 2] and [(8 - 3) - 2]. *)
Theorem equal_precedence_associates_left :
  (forall fuel ExprPrec LHS st TokPrec st1 t st2 RHS st3 NextPrec st4,
     GetTokPrecedence st = (TokPrec, st1) ->
     ExprPrec <= TokPrec ->
     getNextToken st1 = (t, st2) ->
     ParsePrimary fuel st2 = Done (Some RHS) st3 ->
     GetTokPrecedence st3 = (NextPrec, st4) ->
     NextPrec <= TokPrec ->
     ParseBinOpRHS (S fuel) ExprPrec LHS st =
     ParseBinOpRHS fuel ExprPrec
       (BinaryExprAST (char_of_int (CurTok st1)) LHS RHS) st4) /\
  (forall op1 op2,
     op1 ∈ operators -> op2 ∈ operators ->
     precedence_of op1 = precedence_of op2 ->
     parses_to ("8 " +:+ sym op1 +:+ " 3 " +:+ sym op2 +:+ " 2")
               (Bin op2 (Bin op1 (Num "8") (Num "3")) (Num "2")) /\
     parses_to ("(8 " +:+ sym op1 +:+ " 3) " +:+ sym op2 +:+ " 2")
               (Bin op2 (Bin op1 (Num "8") (Num "3")) (Num "2"))).
Proof.
  split; [exact ParseBinOpRHS_builds_left|].
  intros op1 op2 H1 H2 Heq.
  each_operator H1; each_operator H2;
    (vm_compute in Heq; discriminate Heq) || (split; by_parsing).
Qed.

(** C5.  Parentheses override precedence.  In any state, a group in
    parentheses is returned by [ParsePrimary] whole, as one operand,
    whatever operators it holds.  So [(1 + 2) * 3] parses to the
    multiplication whose left child is the addition, whereas without the
    parentheses the multiplication is the right child of the addition.
    The same holds of every pair of a weaker operator inside the
    parentheses and a stronger one outside. *)
Theorem parentheses_override_precedence :
  (forall fuel st t st1 V st2 t' st3,
     CurTok st = ch "(" ->
     getNextToken st = (t, st1) ->
     ParseExpression fuel st1 = Done (Some V) st2 ->
     CurTok st2 = ch ")" ->
     getNextToken st2 = (t', st3) ->
     ParsePrimary (S (S fuel)) st = Done (Some V) st3) /\
  parses_to "(1 + 2) * 3"
    (Bin (ch "*") (Bin (ch "+") (Num "1") (Num "2")) (Num "3")) /\
  parses_to "1 + 2 * 3"
    (Bin (ch "+") (Num "1") (Bin (ch "*") (Num "2") (Num "3"))) /\
  (forall rest,
     parses_to ("(1 + 2) * 3;" +:+ rest)
       (Bin (ch "*") (Bin (ch "+") (Num "1") (Num "2")) (Num "3"))) /\
  (forall lo hi, lo ∈ operators -> hi ∈ operators ->
     (precedence_of lo <? precedence_of hi) = true ->
     parses_to ("(1 " +:+ sym lo +:+ " 2) " +:+ sym hi +:+ " 3")
               (Bin hi (Bin lo (Num "1") (Num "2")) (Num "3")) /\
     parses_to ("1 " +:+ sym lo +:+ " 2 " +:+ sym hi +:+ " 3")
               (Bin lo (Num "1") (Bin hi (Num "2") (Num "3")))).
Proof.
  split; [exact ParsePrimary_group|].
  split; [by_parsing|]. split; [by_parsing|]. split.
  - intros [|a rest]; by_parsing.
  - intros lo hi Hlo Hhi Hlt.
    each_operator Hlo; each_operator Hhi;
      (vm_compute in Hlt; discriminate Hlt) || (split; by_parsing).
Qed.

(** ** The module under the builder's operations *)

Lemma getFunction_update_function Nm f M :
  (forall F, fn_name (f F) = fn_name F) ->
  getFunction Nm (update_function Nm f M) = f <$> getFunction Nm M.
Proof.
  intros Hf. unfold getFunction, update_function.
  induction M as [|F M IH]; [reflexivity|]. cbn [List.map List.find].
  destruct (String.eqb (fn_name F) Nm) eqn:E.
  - rewrite Hf, E. reflexivity.
  - rewrite E. exact IH.
Qed.

Lemma others_update_function Nm f M :
  (forall F, fn_name (f F) = fn_name F) ->
  others Nm (update_function Nm f M) = others Nm M.
Proof.
  intros Hf. unfold others, update_function.
  induction M as [|F M IH]; [reflexivity|]. cbn [List.map List.filter].
  destruct (String.eqb (fn_name F) Nm) eqn:E.
  - rewrite Hf, E. exact IH.
  - rewrite E. cbn [negb]. f_equal. exact IH.
Qed.

Lemma others_app Nm M1 M2 : others Nm (M1 ++ M2) = others Nm M1 ++ others Nm M2.
Proof. apply List.filter_app. Qed.

Lemma others_idempotent Nm M : others Nm (others Nm M) = others Nm M.
Proof.
  unfold others. induction M as [|F M IH]; [reflexivity|]. cbn [List.filter].
  destruct (negb (String.eqb (fn_name F) Nm)) eqn:E; [|exact IH].
  cbn [List.filter]. rewrite E. f_equal. exact IH.
Qed.

Lemma others_absent Nm M : getFunction Nm M = None -> others Nm M = M.
Proof.
  unfold others, getFunction. induction M as [|F M IH]; [reflexivity|].
  cbn [List.find List.filter].
  destruct (String.eqb (fn_name F) Nm); [discriminate|].
  intros H. cbn [negb]. f_equal. exact (IH H).
Qed.

Lemma getFunction_others Nm M : getFunction Nm (others Nm M) = None.
Proof.
  unfold others, getFunction. induction M as [|F M IH]; [reflexivity|].
  cbn [List.filter].
  destruct (String.eqb (fn_name F) Nm) eqn:E; cbn [negb]; [exact IH|].
  cbn [List.find]. rewrite E. exact IH.
Qed.

Lemma getFunction_others_ne Nm Nm' M :
  Nm' <> Nm -> getFunction Nm' (others Nm M) = getFunction Nm' M.
Proof.
  intros Hne. unfold others, getFunction.
  induction M as [|F M IH]; [reflexivity|]. cbn [List.filter List.find].
  destruct (String.eqb (fn_name F) Nm) eqn:E; cbn [negb].
  - apply String.eqb_eq in E.
    destruct (String.eqb (fn_name F) Nm') eqn:E'; [|exact IH].
    apply String.eqb_eq in E'. congruence.
  - cbn [List.find]. destruct (String.eqb (fn_name F) Nm'); [reflexivity|exact IH].
Qed.


(** An insertion touches no function but the one the builder points
    into, and leaves everything but the module alone. *)
Lemma Insert_others I st Nm blk :
  Builder st = Some (Nm, blk) ->
  others Nm (TheModule (Insert I st)) = others Nm (TheModule st).
Proof.
  intros EB. unfold Insert. rewrite EB. cbn [set_TheModule TheModule].
  apply others_update_function. reflexivity.
Qed.

Lemma Insert_Builder I st : Builder (Insert I st) = Builder st.
Proof.
  unfold Insert. destruct (Builder st) as [[? ?]|] eqn:E;
    cbn [Builder set_TheModule]; exact E.
Qed.

Lemma Insert_stderr I st : stderr (Insert I st) = stderr st.
Proof. unfold Insert. destruct (Builder st) as [[? ?]|]; reflexivity. Qed.

(** ** Code generation folds

    The grammar has no variables: every leaf of a tree is a number, and
    [NumberExprAST::codegen] returns a constant.  So every request
    [BinaryExprAST::codegen] makes is a request on constants, which the
    builder folds. *)

Lemma emit_all_eq l :
  forall st,
    emit_all l st
    = mkState (stdin st) (LastChar st) (NumVal st) (CurTok st) (BinopPrecedence st)
              (TheModule st) (Builder st) (NamedValues st) (stderr st ++ l).
Proof.
  induction l as [|o l IH]; intros st.
  - destruct st. cbn. rewrite app_nil_r. reflexivity.
  - cbn [emit_all foldl]. fold (emit_all l (emit o st)). rewrite IH.
    unfold emit.
    cbn [stdin LastChar NumVal CurTok BinopPrecedence TheModule Builder
           NamedValues stderr].
    rewrite <- app_assoc. reflexivity.
Qed.

Lemma emit_all_app l1 l2 st : emit_all (l1 ++ l2) st = emit_all l2 (emit_all l1 st).
Proof. unfold emit_all. apply foldl_app. Qed.

Lemma fold_node_codegen_case Op a b :
  is_Some (fold_node Op a b) <-> has_codegen_case Op = true.
Proof.
  unfold fold_node, has_codegen_case.
  repeat match goal with
         | |- context [if ?c then _ else _] => destruct c
         end; cbn [orb]; split; intros H; try reflexivity; eauto;
    try discriminate H; destruct H; discriminate.
Qed.

Lemma constant_of_codegen_total e : is_Some (constant_of e) <-> codegen_total e = true.
Proof.
  induction e as [Val|Op LHS IHL RHS IHR]; cbn [constant_of codegen_total].
  - split; [reflexivity|eauto].
  - rewrite !andb_true_iff, <- IHL, <- IHR.
    destruct (constant_of LHS) as [a|], (constant_of RHS) as [b|].
    + rewrite <- (fold_node_codegen_case Op a b).
      split; [intros H; split; [split|]; eauto|intros [[H _] _]; exact H].
    + split; [intros [? [=]]|]. intros [_ [? [=]]].
    + split; [intros [? [=]]|]. intros [[_ [? [=]]] _].
    + split; [intros [? [=]]|]. intros [_ [? [=]]].
Qed.

(** Code generation of a tree returns the constant of the tree and
    leaves the state as it was; or it fails, having written the message
    of an operator without a case, and nothing but messages. *)
Lemma ExprAST_codegen_shape e :
  forall st,
    match constant_of e with
    | Some d => ExprAST_codegen e st = (Some (ConstantFP d), st)
    | None => exists l, ExprAST_codegen e st
                        = (None, emit_all (invalid_operator_message :: l) st)
    end.
Proof.
  induction e as [Val|Op LHS IHL RHS IHR]; intros st; [reflexivity|].
  cbn [constant_of ExprAST_codegen]. specialize (IHL st).
  destruct (constant_of LHS) as [a|].
  - rewrite IHL. specialize (IHR st). destruct (constant_of RHS) as [b|].
    + rewrite IHR. unfold fold_node.
      repeat match goal with
             | |- context [if ?c then _ else _] => destruct c
             end; try reflexivity.
      exists []. reflexivity.
    + destruct IHR as [l ->]. exists l. reflexivity.
  - destruct IHL as [l ->].
    specialize (IHR (emit_all (invalid_operator_message :: l) st)).
    destruct (constant_of RHS) as [b|].
    + rewrite IHR. exists l. reflexivity.
    + destruct IHR as [l' ->]. exists (l ++ invalid_operator_message :: l').
      rewrite <- emit_all_app. reflexivity.
Qed.

(** Whatever it returns, code generation changes nothing but the error
    stream, and not even that when it succeeds. *)
Lemma ExprAST_codegen_emits e st :
  exists l,
    snd (ExprAST_codegen e st) = emit_all l st /\
    (forall v, fst (ExprAST_codegen e st) = Some v -> l = []).
Proof.
  pose proof (ExprAST_codegen_shape e st) as H.
  destruct (constant_of e) as [d|].
  - rewrite H. exists []. split; reflexivity.
  - destruct H as [l ->]. eexists. split; [reflexivity|]. intros v [=].
Qed.

Lemma ExprAST_codegen_constant e st v st' :
  ExprAST_codegen e st = (Some v, st') ->
  exists d, constant_of e = Some d /\ v = ConstantFP d /\ st' = st.
Proof.
  intros H. pose proof (ExprAST_codegen_shape e st) as Hs.
  destruct (constant_of e) as [d|].
  - rewrite Hs in H. injection H as <- <-. exists d. repeat split.
  - destruct Hs as [l Hs]. rewrite Hs in H. discriminate.
Qed.

(** ** Code generation of comparisons *)


(** ** Function code generation and the module *)

(** Expression code generation moves neither the builder nor any
    function. *)
Lemma ExprAST_codegen_confined Nm blk e :
  forall st, Builder st = Some (Nm, blk) ->
             confined Nm st (snd (ExprAST_codegen e st)).
Proof.
  intros st _. destruct (ExprAST_codegen_emits e st) as (l & -> & _).
  rewrite emit_all_eq. split; reflexivity.
Qed.

(** After the entry part of [FunctionAST::codegen] the builder points
    into the function being defined, and the rest of the module is as it
    was. *)
Lemma FunctionAST_codegen_entry_spec F st :
  fst (FunctionAST_codegen_entry F st) = Name (Proto F) /\
  (exists blk, Builder (snd (FunctionAST_codegen_entry F st))
               = Some (Name (Proto F), blk)) /\
  others (Name (Proto F)) (TheModule (snd (FunctionAST_codegen_entry F st)))
  = others (Name (Proto F)) (TheModule st).
Proof.
  unfold FunctionAST_codegen_entry, PrototypeAST_codegen, Function_Create,
    BasicBlock_Create, SetInsertPoint.
  destruct (getFunction (Name (Proto F)) (TheModule st)) as [Fn|] eqn:E;
    cbn [fst snd set_NamedValues set_Builder set_TheModule TheModule Builder
           NamedValues];
    (split; [reflexivity|]); (split; [eexists; reflexivity|]);
    rewrite others_update_function by reflexivity; [reflexivity|].
  rewrite others_app. unfold others at 2. cbn [List.filter fn_name].
  rewrite String.eqb_refl. cbn [negb]. apply app_nil_r.
Qed.

(** C8.  When the body of a function definition fails to generate,
    [FunctionAST::codegen] reports failure and the module it leaves
    holds no function of that name, whether the function had been
    declared before or was created by this call; every other function of
    the module is as it was. *)
Theorem failed_body_leaves_no_function F st :
  fst (ExprAST_codegen (Body F) (snd (FunctionAST_codegen_entry F st))) = None ->
  fst (FunctionAST_codegen F st) = None /\
  getFunction (Name (Proto F)) (TheModule (snd (FunctionAST_codegen F st))) = None /\
  TheModule (snd (FunctionAST_codegen F st))
  = others (Name (Proto F)) (TheModule st) /\
  (forall Nm, Nm <> Name (Proto F) ->
     getFunction Nm (TheModule (snd (FunctionAST_codegen F st)))
     = getFunction Nm (TheModule st)).
Proof.
  intros Hfail. unfold FunctionAST_codegen.
  destruct (FunctionAST_codegen_entry_spec F st) as (Hfn & [blk EB] & Hm).
  destruct (FunctionAST_codegen_entry F st) as [TheFunction st1].
  cbn [fst snd] in *. subst TheFunction.
  pose proof (ExprAST_codegen_confined _ _ (Body F) st1 EB) as [_ Hc].
  destruct (ExprAST_codegen (Body F) st1) as [[v|] st2];
    cbn [fst snd] in *; [discriminate|].
  assert (TheModule (eraseFromParent (Name (Proto F)) st2)
          = others (Name (Proto F)) (TheModule st)) as Hres.
  { unfold eraseFromParent. cbn [TheModule set_TheModule].
    fold (others (Name (Proto F)) (TheModule st2)). congruence. }
  split; [reflexivity|]. rewrite Hres.
  split; [apply getFunction_others|]. split; [reflexivity|].
  intros Nm Hne. apply getFunction_others_ne. exact Hne.
Qed.

(** ** The parser never builds a node the code generator rejects *)

(** On a tree made of such operators code generation returns a value and
    prints nothing. *)
Lemma ExprAST_codegen_total e :
  codegen_total e = true ->
  forall st, exists v,
    fst (ExprAST_codegen e st) = Some v /\
    stderr (snd (ExprAST_codegen e st)) = stderr st.
Proof.
  intros H st. apply constant_of_codegen_total in H as [d Hd].
  pose proof (ExprAST_codegen_shape e st) as Hs. rewrite Hd in Hs.
  exists (ConstantFP d). rewrite Hs. split; reflexivity.
Qed.

Lemma install_operators_only st :
  startup_operators_only (BinopPrecedence st) ->
  startup_operators_only (BinopPrecedence (install_operators st)).
Proof.
  intros Hst k v. unfold install_operators, set_precedence.
  cbn [BinopPrecedence set_BinopPrecedence].
  rewrite !lookup_insert_Some. unfold operators.
  intros H Hv.
  repeat (destruct H as [[<- _]|[_ H]]; [set_solver|]).
  specialize (Hst k v H Hv). exact Hst.
Qed.

Lemma gettok_BinopPrecedence st :
  BinopPrecedence (snd (gettok st)) = BinopPrecedence st.
Proof.
  unfold gettok, gettok_rest.
  repeat match goal with
         | |- context [let '(_, _) := ?p in _] => destruct p
         | |- context [if ?b then _ else _] => destruct b
         end; reflexivity.
Qed.

Lemma getNextToken_BinopPrecedence st :
  BinopPrecedence (snd (getNextToken st)) = BinopPrecedence st.
Proof.
  unfold getNextToken. pose proof (gettok_BinopPrecedence st) as H.
  destruct (gettok st) as [t st']. exact H.
Qed.

Lemma main_init_operators_only input :
  startup_operators_only (BinopPrecedence (main_init input)).
Proof.
  assert (startup_operators_only (BinopPrecedence (startup input))) as H0.
  { intros k v Hk. change (BinopPrecedence (startup input)) with (∅ : gmap Z Z) in Hk.
    rewrite lookup_empty in Hk. discriminate. }
  apply install_operators_only in H0.
  unfold main_init. revert H0.
  generalize (install_operators (startup input)). intros st0 H0.
  pose proof (getNextToken_BinopPrecedence (emit (Text "ready> ") st0)) as H.
  destruct (getNextToken _) as [t st]. cbn [snd] in H.
  unfold InitializeModule. cbn [BinopPrecedence set_Builder set_TheModule].
  rewrite H. exact H0.
Qed.

(** [GetTokPrecedence] leaves [CurTok] alone, keeps the table within
    the operators of [main], and answers either -1 or the positive
    precedence of one of them. *)
Lemma GetTokPrecedence_spec st :
  startup_operators_only (BinopPrecedence st) ->
  startup_operators_only (BinopPrecedence (snd (GetTokPrecedence st))) /\
  CurTok (snd (GetTokPrecedence st)) = CurTok st /\
  (fst (GetTokPrecedence st) = -1 \/
   (0 < fst (GetTokPrecedence st) /\ CurTok st ∈ operators)).
Proof.
  intros Hst. unfold GetTokPrecedence, map_subscript.
  destruct (isascii (CurTok st)); cbn [negb]; [|auto].
  destruct (BinopPrecedence st !! CurTok st) as [v|] eqn:E.
  - destruct (Z.leb_spec v 0); cbn [fst snd BinopPrecedence CurTok set_BinopPrecedence];
      (split; [exact Hst|]); (split; [reflexivity|]); [auto|].
    right. split; [assumption|]. apply (Hst _ v); assumption.
  - cbn [fst snd BinopPrecedence CurTok set_BinopPrecedence Z.leb Z.compare].
    split; [|auto].
    intros k v. rewrite lookup_insert_Some.
    intros [[_ <-]|[_ H]] Hv; [lia|]. apply (Hst _ v); assumption.
Qed.

Lemma operator_has_codegen_case c :
  c ∈ operators -> has_codegen_case (char_of_int c) = true.
Proof. intros H. each_operator H; reflexivity. Qed.

(** The tokens with a positive precedence under the table of [main] are
    its seven operators. *)
Lemma positive_precedence_iff c : 0 < precedence_of c <-> c ∈ operators.
Proof.
  split.
  - unfold precedence_of. intros Hpos.
    pose proof (main_init_operators_only "") as Htbl.
    generalize dependent (main_init ""). intros st Hpos Htbl.
    destruct (GetTokPrecedence_spec (set_CurTok c st) Htbl) as (_ & _ & H).
    destruct H as [H|[_ H]]; [lia|exact H].
  - intros H. each_operator H; vm_compute; reflexivity.
Qed.

Lemma table_ok_getNextToken st : table_ok st -> table_ok (snd (getNextToken st)).
Proof. unfold table_ok. rewrite getNextToken_BinopPrecedence. auto. Qed.

(** Every parsing function keeps the table within the operators of
    [main] and returns only trees whose operators have a codegen case.
    [ParseBinOpRHS] does so when its minimal precedence is not negative,
    which holds of its two call sites: 0 in [ParseExpression] and
    [TokPrec + 1] in the recursive call. *)
Lemma parser_operators n :
  (forall st r st', table_ok st -> ParseExpression n st = Done r st' ->
                    table_ok st' /\ tree_ok r) /\
  (forall st r st', table_ok st -> ParsePrimary n st = Done r st' ->
                    table_ok st' /\ tree_ok r) /\
  (forall st r st', table_ok st -> ParseParenExpr n st = Done r st' ->
                    table_ok st' /\ tree_ok r) /\
  (forall ExprPrec LHS st r st',
      0 <= ExprPrec -> codegen_total LHS = true -> table_ok st ->
      ParseBinOpRHS n ExprPrec LHS st = Done r st' ->
      table_ok st' /\ tree_ok r).
Proof.
  induction n as [|n (IHe & IHp & IHq & IHb)].
  - repeat split; intros; discriminate.
  - split; [|split; [|split]].
    + intros st r st' Hst H. rewrite ParseExpression_S in H.
      destruct (ParsePrimary n st) as [|r1 s1] eqn:E; [discriminate|].
      destruct (IHp _ _ _ Hst E) as [Hs1 Hr1].
      destruct r1 as [LHS|].
      * apply (IHb 0 LHS s1); [lia|apply Hr1; reflexivity|exact Hs1|exact H].
      * injection H as <- <-. split; [exact Hs1|intros e [=]].
    + intros st r st' Hst H. rewrite ParsePrimary_S in H.
      destruct (CurTok st =? tok_number).
      * unfold ParseNumberExpr in H.
        pose proof (table_ok_getNextToken st Hst) as Hn.
        destruct (getNextToken st) as [t s1]. injection H as <- <-.
        split; [exact Hn|]. intros e [= <-]. reflexivity.
      * destruct (CurTok st =? ch "("); [exact (IHq _ _ _ Hst H)|].
        injection H as <- <-. split; [exact Hst|intros e [=]].
    + intros st r st' Hst H. rewrite ParseParenExpr_S in H.
      pose proof (table_ok_getNextToken st Hst) as Hn.
      destruct (getNextToken st) as [t s1]. cbn [snd] in Hn.
      destruct (ParseExpression n s1) as [|r1 s2] eqn:E; [discriminate|].
      destruct (IHe _ _ _ Hn E) as [Hs2 Hr2].
      destruct r1 as [V|].
      * destruct (negb (CurTok s2 =? ch ")")).
        -- injection H as <- <-. split; [exact Hs2|intros e [=]].
        -- pose proof (table_ok_getNextToken s2 Hs2) as Hn2.
           destruct (getNextToken s2) as [t2 s3]. injection H as <- <-.
           split; [exact Hn2|exact Hr2].
      * injection H as <- <-. split; [exact Hs2|intros e [=]].
    + intros ExprPrec LHS st r st' Hp HL Hst H. rewrite ParseBinOpRHS_S in H.
      destruct (GetTokPrecedence_spec st Hst) as (Hs1 & Hc1 & Hprec).
      destruct (GetTokPrecedence st) as [TokPrec s1]. cbn [fst snd] in *.
      destruct (Z.ltb_spec TokPrec ExprPrec) as [Hlt|Hge].
      * injection H as <- <-. split; [exact Hs1|]. intros e [= <-]. exact HL.
      * cbv zeta in H. destruct Hprec as [->|[Hpos Hop]]; [lia|].
        rewrite Hc1 in H.
        pose proof (operator_has_codegen_case _ Hop) as HOp.
        pose proof (table_ok_getNextToken s1 Hs1) as Hn.
        destruct (getNextToken s1) as [t s2]. cbn [snd] in Hn.
        destruct (ParsePrimary n s2) as [|r1 s3] eqn:E; [discriminate|].
        destruct (IHp _ _ _ Hn E) as [Hs3 Hr3].
        destruct r1 as [RHS|];
          [|injection H as <- <-; split; [exact Hs3|intros e [=]]].
        pose proof (Hr3 _ eq_refl) as HR.
        destruct (GetTokPrecedence_spec s3 Hs3) as (Hs4 & _ & _).
        destruct (GetTokPrecedence s3) as [NextPrec s4]. cbn [fst snd] in *.
        destruct (TokPrec <? NextPrec).
        -- destruct (ParseBinOpRHS n (TokPrec + 1) RHS s4) as [|r2 s5] eqn:E2;
             [discriminate|].
           assert (0 <= TokPrec + 1) as Hp1 by lia.
           pose proof (IHb (TokPrec + 1) RHS s4 r2 s5 Hp1 HR Hs4 E2) as [Hs5 Hr5].
           destruct r2 as [RHS'|];
             [|injection H as <- <-; split; [exact Hs5|intros e [=]]].
           refine (IHb ExprPrec _ s5 r st' Hp _ Hs5 H).
           cbn [codegen_total]. rewrite HOp, HL, (Hr5 _ eq_refl). reflexivity.
        -- refine (IHb ExprPrec _ s4 r st' Hp _ Hs4 H).
           cbn [codegen_total]. rewrite HOp, HL, HR. reflexivity.
Qed.

(** C10.  Start the parser in a state whose precedence table gives a
    positive precedence to the operators of [main] only, as every state
    of a run is ([main_init_operators_only] and the preservation stated
    here).  Then every tree [ParseExpression] returns is made of nodes
    whose operator has a case in [BinaryExprAST::codegen], so generating
    it, in whatever state, returns a value and prints no "invalid binary
    operator" message, or any other. *)
Theorem parsed_tree_always_generates fuel st e st' :
  startup_operators_only (BinopPrecedence st) ->
  ParseExpression fuel st = Done (Some e) st' ->
  startup_operators_only (BinopPrecedence st') /\
  codegen_total e = true /\
  (forall cst, exists v,
      fst (ExprAST_codegen e cst) = Some v /\
      stderr (snd (ExprAST_codegen e cst)) = stderr cst).
Proof.
  intros Hst H.
  destruct (parser_operators fuel) as (He & _).
  destruct (He _ _ _ Hst H) as [Hst' Hr].
  split; [exact Hst'|]. split; [exact (Hr _ eq_refl)|].
  apply ExprAST_codegen_total. exact (Hr _ eq_refl).
Qed.

(** The driver keeps the table within the operators of [main] too:
    code generation never writes to it. *)
Lemma Insert_BinopPrecedence I st :
  BinopPrecedence (Insert I st) = BinopPrecedence st.
Proof. unfold Insert. destruct (Builder st) as [[? ?]|]; reflexivity. Qed.

Lemma ExprAST_codegen_BinopPrecedence e :
  forall st, BinopPrecedence (snd (ExprAST_codegen e st)) = BinopPrecedence st.
Proof.
  intros st. destruct (ExprAST_codegen_emits e st) as (l & -> & _).
  rewrite emit_all_eq. reflexivity.
Qed.

Lemma FunctionAST_codegen_BinopPrecedence F st :
  BinopPrecedence (snd (FunctionAST_codegen F st)) = BinopPrecedence st.
Proof.
  unfold FunctionAST_codegen.
  assert (BinopPrecedence (snd (FunctionAST_codegen_entry F st)) = BinopPrecedence st)
    as He.
  { unfold FunctionAST_codegen_entry, PrototypeAST_codegen, Function_Create,
      BasicBlock_Create, SetInsertPoint.
    destruct (getFunction (Name (Proto F)) (TheModule st)); reflexivity. }
  destruct (FunctionAST_codegen_entry F st) as [TheFunction st1]. cbn [snd] in He.
  pose proof (ExprAST_codegen_BinopPrecedence (Body F) st1) as Hb.
  destruct (ExprAST_codegen (Body F) st1) as [[v|] st2]; cbn [snd] in *.
  - unfold CreateRet. rewrite Insert_BinopPrecedence. congruence.
  - unfold eraseFromParent. cbn [BinopPrecedence set_TheModule]. congruence.
Qed.

Lemma HandleTopLevelExpression_table_ok fuel st st' :
  table_ok st -> HandleTopLevelExpression fuel st = Done tt st' -> table_ok st'.
Proof.
  unfold HandleTopLevelExpression, ParseTopLevelExpr. intros Hst H.
  destruct (ParseExpression fuel st) as [|r s1] eqn:E; [discriminate|].
  destruct (parser_operators fuel) as (He & _).
  destruct (He _ _ _ Hst E) as [Hs1 _].
  destruct r as [e|]; [|injection H as <-; exact Hs1].
  pose proof (FunctionAST_codegen_BinopPrecedence
                (mkFunctionAST (mkPrototypeAST "__anon_expr" []) e) s1) as Hc.
  destruct (FunctionAST_codegen _ s1) as [[FnIR|] s2]; cbn [snd] in Hc.
  - injection H as <-. unfold table_ok, eraseFromParent.
    cbn [BinopPrecedence set_TheModule emit]. rewrite Hc. exact Hs1.
  - pose proof (getNextToken_BinopPrecedence s2) as Hn.
    destruct (getNextToken s2) as [t s3]. cbn [snd] in Hn.
    injection H as <-. unfold table_ok. rewrite Hn, Hc. exact Hs1.
Qed.

(** In a run, therefore, the branch of [HandleTopLevelExpression] that
    skips a token after a failed code generation is never taken: what
    the parser returns always generates. *)
Lemma HandleTopLevelExpression_generates fuel st FnAST st1 :
  table_ok st ->
  ParseTopLevelExpr fuel st = Done (Some FnAST) st1 ->
  exists FnIR, fst (FunctionAST_codegen FnAST st1) = Some FnIR.
Proof.
  unfold ParseTopLevelExpr. intros Hst H.
  destruct (ParseExpression fuel st) as [|r s1] eqn:E; [discriminate|].
  destruct r as [e|]; [|discriminate]. injection H as <- <-.
  destruct (parser_operators fuel) as (He & _).
  destruct (He _ _ _ Hst E) as [_ Hr].
  unfold FunctionAST_codegen.
  destruct (FunctionAST_codegen_entry _ s1) as [TheFunction s2]. cbn [Body].
  destruct (ExprAST_codegen_total e (Hr _ eq_refl) s2) as (v & Hv & _).
  destruct (ExprAST_codegen e s2) as [ov s3]. cbn [fst] in Hv. subst ov.
  eexists. reflexivity.
Qed.

(** ** A parenthesis that is never closed *)

(** C7.  When the expression after ['('] has been parsed and the current
    token is not [')'], [ParseParenExpr] prints [Error: expected ')']
    and fails.  On the input [(1 + 2] followed by the end of the input
    the unit therefore fails to parse with that message, at the
    end-of-input token.  The whole run prints two prompts, the message
    and a last prompt, then the module, which is empty; the builder's
    insertion point is still unset, so [FunctionAST::codegen], which
    sets it first thing, was never entered. *)
Theorem unclosed_parenthesis_is_reported :
  (forall fuel st V st2,
      ParseExpression fuel (snd (getNextToken st)) = Done (Some V) st2 ->
      CurTok st2 <> ch ")" ->
      ParseParenExpr (S fuel) st = Done None (LogError "expected ')'" st2)) /\
  (exists n, forall fuel, (n <= fuel)%nat -> exists st',
      ParseTopLevelExpr fuel (emit (Text "ready> ") (main_init "(1 + 2"))
      = Done None st' /\
      stderr st' = [Text "ready> "; Text "ready> ";
                    Text ("Error: expected ')'" +:+ LF)] /\
      CurTok st' = tok_eof) /\
  runs_to "(1 + 2" (fun final =>
    stderr final = [Text "ready> "; Text "ready> ";
                    Text ("Error: expected ')'" +:+ LF);
                    Text "ready> "; PrintModule []] /\
    TheModule final = [] /\
    Builder final = None).
Proof.
  split; [|split].
  - intros fuel st V st2 H Hne. rewrite ParseParenExpr_S.
    destruct (getNextToken st) as [t s1]. cbn [snd] in H. rewrite H.
    apply Z.eqb_neq in Hne. rewrite Hne. reflexivity.
  - exists 12%nat. intros fuel Hle.
    assert (exists st',
      ParseTopLevelExpr 12 (emit (Text "ready> ") (main_init "(1 + 2"))
      = Done None st' /\
      stderr st' = [Text "ready> "; Text "ready> ";
                    Text ("Error: expected ')'" +:+ LF)] /\
      CurTok st' = tok_eof) as (st' & Hrun & Hout).
    { vm_compute. eexists. split; [reflexivity|]. split; reflexivity. }
    exists st'. split; [|exact Hout].
    exact (ParseTopLevelExpr_fuel _ _ _ _ _ Hrun Hle).
  - apply (runs_to_intro 12). vm_compute.
    eexists. split; [reflexivity|]. split; [reflexivity|]. split; reflexivity.
Qed.

(** * Further properties of the lexer *)

Lemma int_of_ascii_range a : 0 <= int_of_ascii a <= 255.
Proof. unfold int_of_ascii. pose proof (N_ascii_bounded a). lia. Qed.

Lemma ascii_of_int_of_ascii a : ascii_of_int (int_of_ascii a) = a.
Proof.
  unfold ascii_of_int, int_of_ascii. pose proof (N_ascii_bounded a).
  rewrite Z.mod_small by lia. rewrite N2Z.id. apply ascii_N_embedding.
Qed.

Lemma append_assoc (s t u : string) : (s +:+ t) +:+ u = s +:+ (t +:+ u).
Proof.
  induction s as [|a s IH]; [reflexivity|].
  change (String a ((s +:+ t) +:+ u) = String a (s +:+ (t +:+ u))).
  rewrite IH. reflexivity.
Qed.

Lemma append_cons a (s t : string) : String a s +:+ t = String a (s +:+ t).
Proof. reflexivity. Qed.

Lemma append_snoc acc x y :
  (acc +:+ String x EmptyString) +:+ y = acc +:+ String x y.
Proof. rewrite append_assoc. reflexivity. Qed.

Lemma set_input_same st : set_input (LastChar st) (stdin st) st = st.
Proof. destruct st. reflexivity. Qed.

Lemma skip_space_stops c input : isspace c = false -> skip_space c input = (c, input).
Proof. intros H. destruct input; cbn; rewrite H; reflexivity. Qed.

Lemma skip_space_run c ws tail :
  isspace c = true -> all_chars isspace ws = true ->
  skip_space c (ws +:+ tail) = skip_space (fst (getchar tail)) (snd (getchar tail)).
Proof.
  revert c. induction ws as [|a ws IH]; intros c Hc Hws.
  - change (EmptyString +:+ tail) with tail.
    destruct tail as [|b tail]; cbn [skip_space getchar fst snd]; rewrite Hc;
      reflexivity.
  - cbn [all_chars] in Hws. apply andb_true_iff in Hws as [Ha Hws].
    change (String a ws +:+ tail) with (String a (ws +:+ tail)).
    cbn [skip_space]. rewrite Hc. apply IH; assumption.
Qed.

Lemma number_run_spec lexeme :
  forall acc c tail,
    all_chars isnumeric lexeme = true ->
    isnumeric (fst (getchar tail)) = false ->
    number_run acc c (lexeme +:+ tail)
    = (acc +:+ String (ascii_of_int c) lexeme, fst (getchar tail), snd (getchar tail)).
Proof.
  induction lexeme as [|a lexeme IH]; intros acc c tail Hall Htail.
  - change (EmptyString +:+ tail) with tail.
    destruct tail as [|b tail]; cbn [number_run]; [reflexivity|].
    cbn [getchar fst snd] in *. unfold isnumeric in Htail. rewrite Htail. reflexivity.
  - cbn [all_chars] in Hall. apply andb_true_iff in Hall as [Ha Hall].
    change (String a lexeme +:+ tail) with (String a (lexeme +:+ tail)).
    cbn [number_run]. unfold isnumeric in Ha. rewrite Ha.
    rewrite IH by assumption. rewrite append_snoc, ascii_of_int_of_ascii. reflexivity.
Qed.

(** X1.  A numeric run is taken whole.  When [LastChar] holds a digit or
    a ['.'] and the input goes on with digits and dots up to a character
    that is neither (or up to the end of the input), [gettok] returns
    the number token, [NumVal] is [strtod] of the whole run, dots
    included however many there are, and the character after the run is
    left in [LastChar]. *)
Theorem gettok_number st a lexeme tail :
  LastChar st = int_of_ascii a ->
  isnumeric (int_of_ascii a) = true ->
  all_chars isnumeric lexeme = true ->
  stdin st = lexeme +:+ tail ->
  isnumeric (fst (getchar tail)) = false ->
  gettok st =
  (tok_number,
   set_NumVal (strtod (String a lexeme))
     (set_input (fst (getchar tail)) (snd (getchar tail)) st)).
Proof.
  intros Hc Hnum Hall Hin Htail. unfold gettok.
  assert (isspace (LastChar st) = false /\ isalpha (LastChar st) = false) as [Hs Ha].
  { rewrite Hc. revert Hnum. unfold isnumeric, isdigit, isspace, isalpha.
    change (ch ".") with 46. lia. }
  rewrite (skip_space_stops _ _ Hs), set_input_same, Ha.
  unfold gettok_rest. fold (isnumeric (LastChar st)). rewrite Hc, Hnum, Hin.
  rewrite (number_run_spec lexeme EmptyString _ tail Hall Htail).
  rewrite ascii_of_int_of_ascii. reflexivity.
Qed.

(** X2.  White space before a token is skipped.  When [LastChar] holds a
    white-space character and the input goes on with white space,
    [gettok] answers as it does once all of it has been read. *)
Theorem gettok_skips_white_space st ws tail :
  isspace (LastChar st) = true ->
  all_chars isspace ws = true ->
  stdin st = ws +:+ tail ->
  gettok st = gettok (set_input (fst (getchar tail)) (snd (getchar tail)) st).
Proof.
  intros Hc Hws Hin. unfold gettok at 1. rewrite Hin, (skip_space_run _ _ _ Hc Hws).
  reflexivity.
Qed.

(** X3.  The end of the input is reported without being consumed, and
    for good: once [gettok] has returned the end-of-input token, the
    state it leaves is a fixed point, and every later call returns that
    token again. *)
Theorem gettok_eof_stable st :
  fst (gettok st) = tok_eof ->
  LastChar (snd (gettok st)) = EOF /\
  gettok (snd (gettok st)) = (tok_eof, snd (gettok st)).
Proof.
  intros H.
  assert (forall s, LastChar s = EOF -> gettok s = (tok_eof, s)) as Hfix.
  { intros s Hs. unfold gettok. rewrite Hs.
    rewrite skip_space_stops by reflexivity. rewrite <- Hs, set_input_same, Hs.
    change (isalpha EOF) with false. cbv iota. unfold gettok_rest. rewrite Hs.
    reflexivity. }
  assert (LastChar (snd (gettok st)) = EOF) as He.
  { revert H. unfold gettok.
    destruct (skip_space (LastChar st) (stdin st)) as [c input].
    cbn [LastChar set_input stdin emit].
    assert (forall s, fst (gettok_rest s) = tok_eof -> LastChar (snd (gettok_rest s)) = EOF)
      as Hrest.
    { intros s. unfold gettok_rest.
      destruct (isdigit (LastChar s) || (LastChar s =? ch ".")).
      - destruct (number_run _ _ _) as [[? ?] ?]. discriminate.
      - destruct (Z.eqb_spec (LastChar s) EOF) as [E|E]; [intros _; exact E|].
        destruct (getchar (stdin s)) as [c' input']. cbn [fst]. unfold tok_eof, EOF in *.
        intros H'. contradiction. }
    destruct (isalpha c).
    - destruct (getchar input) as [c' input']. cbn [LastChar set_input].
      destruct (isalnum c'); [discriminate|]. apply Hrest.
    - apply Hrest. }
  split; [exact He|]. apply Hfix. exact He.
Qed.

Lemma getchar_valid input : valid_char (fst (getchar input)).
Proof.
  destruct input as [|a rest]; [left; reflexivity|right]. apply int_of_ascii_range.
Qed.

Lemma skip_space_valid input :
  forall c, valid_char c -> valid_char (fst (skip_space c input)).
Proof.
  induction input as [|a rest IH]; intros c Hc; cbn.
  - destruct (isspace c); [left; reflexivity|exact Hc].
  - destruct (isspace c); [|exact Hc]. apply IH. right. apply int_of_ascii_range.
Qed.

Lemma skip_space_not_space input :
  forall c, isspace (fst (skip_space c input)) = false.
Proof.
  induction input as [|a rest IH]; intros c; cbn.
  - destruct (isspace c) eqn:E; [reflexivity|exact E].
  - destruct (isspace c) eqn:E; [apply IH|exact E].
Qed.

Lemma number_run_valid input :
  forall acc c, valid_char (snd (fst (number_run acc c input))).
Proof.
  induction input as [|a rest IH]; intros acc c; cbn; [left; reflexivity|].
  destruct (isdigit (int_of_ascii a) || (int_of_ascii a =? ch ".")); [apply IH|].
  right. apply int_of_ascii_range.
Qed.

Lemma gettok_rest_range st :
  valid_char (LastChar st) ->
  valid_char (LastChar (snd (gettok_rest st))) /\
  (fst (gettok_rest st) = tok_eof \/ fst (gettok_rest st) = tok_number \/
   (fst (gettok_rest st) = LastChar st /\ 0 <= LastChar st <= 255 /\
    isnumeric (LastChar st) = false)).
Proof.
  intros Hc. unfold gettok_rest. fold (isnumeric (LastChar st)).
  destruct (isnumeric (LastChar st)) eqn:En.
  - pose proof (number_run_valid (stdin st) EmptyString (LastChar st)) as Hv.
    destruct (number_run _ _ _) as [[NumStr c'] input']. cbn in *. auto.
  - destruct (Z.eqb_spec (LastChar st) EOF) as [E|E]; [cbn; auto|].
    pose proof (getchar_valid (stdin st)) as Hv.
    destruct (getchar (stdin st)) as [c' input']. cbn in *.
    split; [exact Hv|]. right. right. split; [reflexivity|].
    split; [|reflexivity]. destruct Hc as [Hc|Hc]; [contradiction|exact Hc].
Qed.

(** X4.  What [gettok] can return.  Started with a character that
    [getchar] can produce in [LastChar], it leaves such a character
    there, and its result is the end-of-input, the lex-error or the
    number token, or else a character code between 0 and 255 that is
    neither a letter, nor a digit, nor ['.']. *)
Theorem gettok_token_range st :
  valid_char (LastChar st) ->
  valid_char (LastChar (snd (gettok st))) /\
  (fst (gettok st) = tok_eof \/ fst (gettok st) = tok_error \/
   fst (gettok st) = tok_number \/
   (0 <= fst (gettok st) <= 255 /\ isalnum (fst (gettok st)) = false /\
    fst (gettok st) <> ch ".")).
Proof.
  intros Hc. unfold gettok.
  pose proof (skip_space_valid (stdin st) _ Hc) as Hv.
  destruct (skip_space (LastChar st) (stdin st)) as [c input]. cbn [fst] in Hv.
  cbn [LastChar set_input stdin emit].
  assert (forall s, valid_char (LastChar s) -> isalpha (LastChar s) = false ->
            valid_char (LastChar (snd (gettok_rest s))) /\
            (fst (gettok_rest s) = tok_eof \/ fst (gettok_rest s) = tok_error \/
             fst (gettok_rest s) = tok_number \/
             (0 <= fst (gettok_rest s) <= 255 /\ isalnum (fst (gettok_rest s)) = false /\
              fst (gettok_rest s) <> ch "."))) as Hrest.
  { intros s Hs Ha. destruct (gettok_rest_range s Hs) as [Hl Ht].
    split; [exact Hl|]. destruct Ht as [Ht|[Ht|(Ht & Hr & Hn)]]; [auto|auto|].
    right. right. right. rewrite Ht. split; [exact Hr|].
    revert Ha Hn. unfold isnumeric, isalnum, isalpha, isdigit.
    change (ch ".") with 46. lia. }
  destruct (isalpha c) eqn:Ea.
  - pose proof (getchar_valid input) as Hg.
    destruct (getchar input) as [c' input']. cbn [fst LastChar set_input] in *.
    destruct (isalnum c') eqn:En; [cbn; auto|].
    apply Hrest; [exact Hg|].
    cbn [LastChar set_input]. revert En. unfold isalnum. lia.
  - apply Hrest; [exact Hv|exact Ea].
Qed.

Lemma getchar_consumes c input :
  c <> EOF ->
  (unread_chars (fst (getchar input)) (snd (getchar input)) + 1
   <= unread_chars c input)%nat /\
  exists consumed, input = consumed +:+ snd (getchar input).
Proof.
  intros Hc. unfold unread_chars.
  destruct (Z.eqb_spec c EOF) as [E|_]; [contradiction|].
  destruct input as [|a rest]; cbn [getchar fst snd String.length].
  - split; [cbn; lia|]. exists EmptyString. reflexivity.
  - pose proof (int_of_ascii_range a).
    destruct (Z.eqb_spec (int_of_ascii a) EOF) as [E|_]; [unfold EOF in E; lia|].
    split; [lia|]. exists (String a EmptyString). reflexivity.
Qed.

Lemma skip_space_consumes input :
  forall c,
    (unread_chars (fst (skip_space c input)) (snd (skip_space c input))
     <= unread_chars c input)%nat /\
    exists consumed, input = consumed +:+ snd (skip_space c input).
Proof.
  induction input as [|a rest IH]; intros c; cbn [skip_space].
  - destruct (isspace c); cbn [fst snd];
      (split; [unfold unread_chars; cbn; lia|exists EmptyString; reflexivity]).
  - destruct (isspace c) eqn:E; cbn [fst snd].
    + destruct (IH (int_of_ascii a)) as [Hm [consumed Hs]]. split.
      * revert Hm. unfold unread_chars. cbn [String.length].
        pose proof (int_of_ascii_range a).
        destruct (Z.eqb_spec (int_of_ascii a) EOF) as [E'|_]; [unfold EOF in E'; lia|].
        assert (c <> EOF) as Hc by (intros ->; discriminate E).
        destruct (Z.eqb_spec c EOF) as [E'|_]; [contradiction|]. lia.
      * exists (String a consumed). rewrite append_cons. f_equal. exact Hs.
    + split; [lia|]. exists EmptyString. reflexivity.
Qed.

Lemma number_run_consumes input :
  forall acc c,
    c <> EOF ->
    (unread_chars (snd (fst (number_run acc c input))) (snd (number_run acc c input)) + 1
     <= unread_chars c input)%nat /\
    exists consumed, input = consumed +:+ snd (number_run acc c input).
Proof.
  induction input as [|a rest IH]; intros acc c Hc; cbn [number_run].
  - cbn [fst snd]. unfold unread_chars.
    destruct (Z.eqb_spec c EOF) as [E|_]; [contradiction|].
    split; [cbn; lia|]. exists EmptyString. reflexivity.
  - pose proof (int_of_ascii_range a) as Ha.
    assert (int_of_ascii a <> EOF) as Hne by (unfold EOF; lia).
    destruct (isdigit (int_of_ascii a) || (int_of_ascii a =? ch ".")); cbn [fst snd].
    + destruct (IH (acc +:+ String (ascii_of_int c) EmptyString) _ Hne)
        as [Hm [consumed Hs]].
      split.
      * revert Hm. unfold unread_chars. cbn [String.length].
        destruct (Z.eqb_spec (int_of_ascii a) EOF) as [E|_]; [contradiction|].
        destruct (Z.eqb_spec c EOF) as [E|_]; [contradiction|]. lia.
      * exists (String a consumed). rewrite append_cons. f_equal. exact Hs.
    + unfold unread_chars. cbn [String.length].
      destruct (Z.eqb_spec (int_of_ascii a) EOF) as [E|_]; [contradiction|].
      destruct (Z.eqb_spec c EOF) as [E|_]; [contradiction|].
      split; [lia|]. exists (String a EmptyString). reflexivity.
Qed.

Lemma gettok_rest_consumes st :
  (unread (snd (gettok_rest st)) + (if (fst (gettok_rest st) =? tok_eof)%Z then 0 else 1)
   <= unread st)%nat /\
  exists consumed, stdin st = consumed +:+ stdin (snd (gettok_rest st)).
Proof.
  unfold gettok_rest, unread.
  destruct (isdigit (LastChar st) || (LastChar st =? ch ".")) eqn:En.
  - assert (LastChar st <> EOF) as Hc.
    { intros E. rewrite E in En. discriminate En. }
    pose proof (number_run_consumes (stdin st) EmptyString _ Hc) as H.
    destruct (number_run _ _ _) as [[NumStr c'] input']. exact H.
  - destruct (Z.eqb_spec (LastChar st) EOF) as [E|E].
    + cbn [fst snd]. split; [cbn; lia|]. exists EmptyString. reflexivity.
    + pose proof (getchar_consumes _ (stdin st) E) as H.
      destruct (getchar (stdin st)) as [c' input'].
      cbn [fst snd LastChar stdin set_input] in *.
      destruct (Z.eqb_spec (LastChar st) tok_eof) as [E'|_]; [contradiction|]. exact H.
Qed.

Lemma gettok_progress st :
  (unread (snd (gettok st)) + (if (fst (gettok st) =? tok_eof)%Z then 0 else 1)
   <= unread st)%nat /\
  exists consumed, stdin st = consumed +:+ stdin (snd (gettok st)).
Proof.
  unfold gettok.
  destruct (skip_space_consumes (stdin st) (LastChar st)) as [Hm [k1 Hs]].
  destruct (skip_space (LastChar st) (stdin st)) as [c input]. cbn [fst snd] in Hm, Hs.
  cbn [LastChar set_input stdin emit].
  assert (forall s, LastChar s = c -> stdin s = input ->
            (unread (snd (gettok_rest s)) + (if (fst (gettok_rest s) =? tok_eof)%Z then 0 else 1)
             <= unread st)%nat /\
            exists consumed, stdin st = consumed +:+ stdin (snd (gettok_rest s))) as Hrest.
  { intros s Hc Hi. destruct (gettok_rest_consumes s) as [Hm' [k2 Hs']]. split.
    - unfold unread in *. rewrite Hc, Hi in Hm'. lia.
    - exists (k1 +:+ k2). rewrite append_assoc, <- Hs', Hi. exact Hs. }
  destruct (isalpha c) eqn:Ea; [|apply Hrest; reflexivity].
  assert (c <> EOF) as Hc by (intros ->; discriminate Ea).
  destruct (getchar_consumes c input Hc) as [Hg [k2 Hs2]].
  destruct (getchar input) as [c' input']. cbn [fst snd LastChar set_input] in *.
  assert (stdin st = (k1 +:+ k2) +:+ input') as Hsuffix.
  { rewrite append_assoc, <- Hs2. exact Hs. }
  destruct (isalnum c') eqn:En.
  - cbn [fst snd]. change (tok_error =? tok_eof)%Z with false. cbv iota.
    split; [unfold unread in *; cbn [LastChar stdin set_input]; lia|].
    exists (k1 +:+ k2). exact Hsuffix.
  - destruct (gettok_rest_consumes
                (set_input c' input'
                   (emit (Text ("Only numeric literals and operators are permitted." +:+ LF))
                      (set_input c input st)))) as [Hm' [k3 Hs']].
    split.
    + change (unread (set_input c' input' ?x)) with (unread_chars c' input') in Hm'.
      change (unread st) with (unread_chars (LastChar st) (stdin st)). lia.
    + cbn [stdin set_input] in Hs'. exists ((k1 +:+ k2) +:+ k3).
      rewrite append_assoc, <- Hs'. exact Hsuffix.
Qed.

(** X5.  The lexer only moves forward, and every token but the
    end-of-input one costs at least one character: after [gettok] the
    unread input is a suffix of what it was, and the number of
    characters not yet turned into a token has dropped by one or more,
    unless the token is end-of-input. *)
Theorem gettok_consumes st :
  (unread (snd (gettok st)) + (if (fst (gettok st) =? tok_eof)%Z then 0 else 1)
   <= unread st)%nat /\
  exists consumed, stdin st = consumed +:+ stdin (snd (gettok st)).
Proof. exact (gettok_progress st). Qed.

(** * Further properties of the precedence lookup and the parser *)

Lemma set_BinopPrecedence_same st : set_BinopPrecedence (BinopPrecedence st) st = st.
Proof. destruct st. reflexivity. Qed.

Lemma GetTokPrecedence_table st :
  exists tbl,
    snd (GetTokPrecedence st) = set_BinopPrecedence tbl st /\
    (tbl = BinopPrecedence st \/
     (BinopPrecedence st !! CurTok st = None /\
      tbl = <[CurTok st := 0]> (BinopPrecedence st))).
Proof.
  unfold GetTokPrecedence, map_subscript.
  destruct (isascii (CurTok st)); cbn [negb].
  - destruct (BinopPrecedence st !! CurTok st) as [v|] eqn:E.
    + exists (BinopPrecedence st). split; [|left; reflexivity].
      destruct (v <=? 0); reflexivity.
    + exists (<[CurTok st := 0]> (BinopPrecedence st)). split; [reflexivity|].
      right. split; reflexivity.
  - exists (BinopPrecedence st). split; [|left; reflexivity].
    symmetry. apply set_BinopPrecedence_same.
Qed.

Lemma GetTokPrecedence_answer st :
  fst (GetTokPrecedence st) = -1 \/ 0 < fst (GetTokPrecedence st).
Proof.
  unfold GetTokPrecedence, map_subscript.
  destruct (isascii (CurTok st)); cbn [negb]; [|auto].
  destruct (BinopPrecedence st !! CurTok st) as [v|]; cbn [fst].
  - destruct (Z.leb_spec v 0); cbn [fst]; [auto|right; assumption].
  - auto.
Qed.

Lemma GetTokPrecedence_not_ascii st :
  isascii (CurTok st) = false -> GetTokPrecedence st = (-1, st).
Proof. intros H. unfold GetTokPrecedence. rewrite H. reflexivity. Qed.

Lemma GetTokPrecedence_again st :
  GetTokPrecedence (snd (GetTokPrecedence st)) = GetTokPrecedence st.
Proof.
  destruct (GetTokPrecedence st) as [q s1] eqn:Eq. cbn [snd].
  revert Eq. unfold GetTokPrecedence at 1. unfold map_subscript.
  destruct (isascii (CurTok st)) eqn:Ea; cbn [negb].
  - destruct (BinopPrecedence st !! CurTok st) as [v|] eqn:E.
    + rewrite set_BinopPrecedence_same.
      destruct (v <=? 0) eqn:Hv; intros [= <- <-];
        unfold GetTokPrecedence, map_subscript; rewrite Ea, E; cbn [negb];
        rewrite set_BinopPrecedence_same, Hv; reflexivity.
    + cbn [Z.leb Z.compare]. intros [= <- <-].
      unfold GetTokPrecedence, map_subscript.
      cbn [CurTok BinopPrecedence set_BinopPrecedence]. rewrite Ea. cbn [negb].
      rewrite lookup_insert_eq. reflexivity.
  - intros [= <- <-]. unfold GetTokPrecedence. rewrite Ea. reflexivity.
Qed.

(** X6.  Looking a precedence up is harmless.  The answer of
    [GetTokPrecedence] is -1 or a positive number, and -1 for every
    token outside ASCII.  The call may add an entry to the table (the
    subscript of a [std::map] inserts a missing key) but changes nothing
    else in the state, and the entry it adds changes no answer: asking
    again gives the same precedence and the same state, and the
    precedence of every token is what it was before the call. *)
Theorem GetTokPrecedence_harmless st :
  (fst (GetTokPrecedence st) = -1 \/ 0 < fst (GetTokPrecedence st)) /\
  (isascii (CurTok st) = false -> GetTokPrecedence st = (-1, st)) /\
  set_BinopPrecedence (BinopPrecedence st) (snd (GetTokPrecedence st)) = st /\
  GetTokPrecedence (snd (GetTokPrecedence st)) = GetTokPrecedence st /\
  (forall c, fst (GetTokPrecedence (set_CurTok c (snd (GetTokPrecedence st))))
             = fst (GetTokPrecedence (set_CurTok c st))).
Proof.
  split; [|split; [|split; [|split]]].
  - apply GetTokPrecedence_answer.
  - apply GetTokPrecedence_not_ascii.
  - destruct (GetTokPrecedence_table st) as (tbl & -> & _).
    destruct st. reflexivity.
  - apply GetTokPrecedence_again.
  - intros c. destruct (GetTokPrecedence_table st) as (tbl & -> & Htbl).
    unfold GetTokPrecedence, map_subscript.
    cbn [CurTok BinopPrecedence set_BinopPrecedence set_CurTok].
    destruct (isascii c); cbn [negb]; [|reflexivity].
    destruct Htbl as [->|[Hnone ->]]; [reflexivity|].
    destruct (decide (CurTok st = c)) as [<-|Hne].
    + rewrite lookup_insert_eq, Hnone. reflexivity.
    + rewrite lookup_insert_ne by exact Hne.
      destruct (BinopPrecedence st !! c) as [v|]; [|reflexivity].
      destruct (v <=? 0); reflexivity.
Qed.

(** X7.  A failed parse is never silent.  When [ParseExpression] fails,
    the last thing written to the error stream is one of the two
    messages of the parser. *)
Theorem parse_failure_is_reported fuel st st' :
  ParseExpression fuel st = Done None st' ->
  last (stderr st')
  = Some (Text ("Error: unexpected token when expecting an expression" +:+ LF)) \/
  last (stderr st') = Some (Text ("Error: expected ')'" +:+ LF)).
Proof.
  set (reported := fun s : State =>
    last (stderr s)
    = Some (Text ("Error: unexpected token when expecting an expression" +:+ LF)) \/
    last (stderr s) = Some (Text ("Error: expected ')'" +:+ LF))).
  assert (forall n,
    (forall s s', ParseExpression n s = Done None s' -> reported s') /\
    (forall s s', ParsePrimary n s = Done None s' -> reported s') /\
    (forall s s', ParseParenExpr n s = Done None s' -> reported s') /\
    (forall p l s s', ParseBinOpRHS n p l s = Done None s' -> reported s')) as H.
  { induction n as [|n (IHe & IHp & IHq & IHb)].
    - repeat split; intros; discriminate.
    - split; [|split; [|split]].
      + intros s s' H. rewrite ParseExpression_S in H.
        destruct (ParsePrimary n s) as [|[LHS|] s1] eqn:E; [discriminate| |].
        * exact (IHb _ _ _ _ H).
        * injection H as <-. exact (IHp _ _ E).
      + intros s s' H. rewrite ParsePrimary_S in H.
        destruct (CurTok s =? tok_number).
        * unfold ParseNumberExpr in H. destruct (getNextToken s). discriminate.
        * destruct (CurTok s =? ch "("); [exact (IHq _ _ H)|].
          injection H as <-. left. unfold LogError, emit. cbn [stderr].
          apply last_snoc.
      + intros s s' H. rewrite ParseParenExpr_S in H.
        destruct (getNextToken s) as [t s1].
        destruct (ParseExpression n s1) as [|[V|] s2] eqn:E; [discriminate| |].
        * destruct (negb (CurTok s2 =? ch ")")).
          -- injection H as <-. right. unfold LogError, emit. cbn [stderr].
             apply last_snoc.
          -- destruct (getNextToken s2). discriminate.
        * injection H as <-. exact (IHe _ _ E).
      + intros p l s s' H. rewrite ParseBinOpRHS_S in H.
        destruct (GetTokPrecedence s) as [TokPrec s1].
        destruct (TokPrec <? p); [discriminate|]. cbv zeta in H.
        destruct (getNextToken s1) as [t s2].
        destruct (ParsePrimary n s2) as [|[RHS|] s3] eqn:E; [discriminate| |].
        * destruct (GetTokPrecedence s3) as [NextPrec s4].
          destruct (TokPrec <? NextPrec); [|exact (IHb _ _ _ _ H)].
          destruct (ParseBinOpRHS n (TokPrec + 1) RHS s4) as [|[RHS'|] s5] eqn:E2;
            [discriminate| |].
          -- exact (IHb _ _ _ _ H).
          -- injection H as <-. exact (IHb _ _ _ _ E2).
        * injection H as <-. exact (IHp _ _ E). }
  intros Hf. destruct (H fuel) as (He & _). exact (He _ _ Hf).
Qed.

Lemma ParseBinOpRHS_stops fuel :
  forall p l st e st',
    ParseBinOpRHS fuel p l st = Done (Some e) st' ->
    fst (GetTokPrecedence st') < p /\ snd (GetTokPrecedence st') = st'.
Proof.
  induction fuel as [|n IH]; intros p l st e st' H; [discriminate|].
  rewrite ParseBinOpRHS_S in H.
  pose proof (GetTokPrecedence_again st) as Hidem.
  destruct (GetTokPrecedence st) as [TokPrec s1] eqn:Ep. cbn [snd] in Hidem.
  destruct (Z.ltb_spec TokPrec p) as [Hlt|Hge].
  - injection H as <- <-. rewrite Hidem. split; [exact Hlt|reflexivity].
  - cbv zeta in H. destruct (getNextToken s1) as [t s2].
    destruct (ParsePrimary n s2) as [|[RHS|] s3]; [discriminate| |discriminate].
    destruct (GetTokPrecedence s3) as [NextPrec s4].
    destruct (TokPrec <? NextPrec); [|exact (IH _ _ _ _ _ H)].
    destruct (ParseBinOpRHS n (TokPrec + 1) RHS s4) as [|[RHS'|] s5];
      [discriminate| |discriminate].
    exact (IH _ _ _ _ _ H).
Qed.

(** X8.  An expression goes as far as the operators go.  When
    [ParseExpression] succeeds, the token it stops at has no precedence:
    [GetTokPrecedence] answers -1 in the state the parser leaves, and
    leaves that state as it is. *)
Theorem ParseExpression_stops_at_non_operator fuel st e st' :
  ParseExpression fuel st = Done (Some e) st' ->
  GetTokPrecedence st' = (-1, st').
Proof.
  intros H. destruct fuel as [|n]; [discriminate|].
  rewrite ParseExpression_S in H.
  destruct (ParsePrimary n st) as [|[LHS|] s1]; [discriminate| |discriminate].
  destruct (ParseBinOpRHS_stops _ _ _ _ _ _ H) as [Hlt Hst].
  destruct (GetTokPrecedence_answer st') as [Hp|Hp]; [|lia].
  destruct (GetTokPrecedence st') as [q s]. cbn [fst snd] in *. congruence.
Qed.

(** ** Termination of the parser *)

Lemma getNextToken_pending st :
  (pending (snd (getNextToken st)) + (if (CurTok st =? tok_eof)%Z then 0 else 1)
   <= pending st)%nat.
Proof.
  unfold getNextToken. destruct (gettok_progress st) as [Hm _].
  destruct (gettok st) as [t s']. cbn [fst snd] in *.
  unfold pending. cbn [CurTok set_CurTok].
  change (unread (set_CurTok t s')) with (unread s'). lia.
Qed.

Lemma GetTokPrecedence_pending st : pending (snd (GetTokPrecedence st)) = pending st.
Proof. destruct (GetTokPrecedence_table st) as (tbl & -> & _). reflexivity. Qed.

Lemma GetTokPrecedence_CurTok st : CurTok (snd (GetTokPrecedence st)) = CurTok st.
Proof. destruct (GetTokPrecedence_table st) as (tbl & -> & _). reflexivity. Qed.

Lemma GetTokPrecedence_not_eof st :
  0 <= fst (GetTokPrecedence st) -> (CurTok st =? tok_eof) = false.
Proof.
  unfold GetTokPrecedence. destruct (isascii (CurTok st)) eqn:Ea; cbn [negb fst].
  - intros _. revert Ea. unfold isascii, tok_eof. lia.
  - lia.
Qed.

Lemma ParsePrimary_fuel n m st a st' :
  ParsePrimary n st = Done a st' -> (n <= m)%nat -> ParsePrimary m st = Done a st'.
Proof. apply parser_fuel_stable. Qed.

Lemma ParseBinOpRHS_fuel n m p l st a st' :
  ParseBinOpRHS n p l st = Done a st' -> (n <= m)%nat ->
  ParseBinOpRHS m p l st = Done a st'.
Proof. destruct (parser_fuel_stable n) as (_ & _ & _ & H). apply (H p l). Qed.

Lemma parser_returns n :
  (forall st, (pending st <= n)%nat ->
              returns_within ParseExpression (3 * n + 3) st) /\
  (forall st, (pending st <= n)%nat ->
              returns_within ParsePrimary (3 * n + 2) st) /\
  (forall p l st, 0 <= p -> (pending st <= n)%nat ->
                  returns_within (fun k => ParseBinOpRHS k p l) (3 * n + 2) st).
Proof.
  induction n as [|n (IHe & IHp & IHb)].
  - assert (forall st, (pending st <= 0)%nat -> CurTok st = tok_eof) as Heof.
    { intros st. unfold pending.
      destruct (Z.eqb_spec (CurTok st) tok_eof); [auto|lia]. }
    assert (forall st, (pending st <= 0)%nat -> returns_within ParsePrimary 2 st) as HP.
    { intros st H. unfold returns_within. rewrite ParsePrimary_S, (Heof _ H).
      eexists _, _. split; [reflexivity|]. apply Nat.le_refl. }
    split; [|split].
    + intros st H. destruct (HP st H) as (a & st' & Hrun & Hle).
      assert (a = None) as ->.
      { revert Hrun. rewrite ParsePrimary_S, (Heof _ H). intros [= <- _]. reflexivity. }
      unfold returns_within. exists None, st'. split; [|exact Hle].
      change (3 * 0 + 3)%nat with 3%nat. rewrite ParseExpression_S, Hrun. reflexivity.
    + exact HP.
    + intros p l st Hp H. unfold returns_within. exists (Some l), st.
      split; [|apply Nat.le_refl].
      change (3 * 0 + 2)%nat with 2%nat. cbv beta. rewrite ParseBinOpRHS_S.
      rewrite GetTokPrecedence_not_ascii by (rewrite (Heof _ H); reflexivity).
      destruct (Z.ltb_spec (-1) p); [reflexivity|lia].
  - assert (forall st, (pending st <= S n)%nat ->
              returns_within ParsePrimary (3 * S n + 2) st) as HP.
    { intros st H. unfold returns_within.
      replace (3 * S n + 2)%nat with (S (3 * n + 4)) by lia.
      rewrite ParsePrimary_S.
      destruct (Z.eqb_spec (CurTok st) tok_number) as [En|_].
      - unfold ParseNumberExpr. pose proof (getNextToken_pending st) as Hn.
        destruct (getNextToken st) as [t s1]. cbn [snd] in Hn.
        eexists _, _. split; [reflexivity|lia].
      - destruct (Z.eqb_spec (CurTok st) (ch "(")) as [Ep|_].
        + replace (3 * n + 4)%nat with (S (3 * n + 3)) by lia.
          rewrite ParseParenExpr_S. pose proof (getNextToken_pending st) as Hn.
          rewrite Ep in Hn. change (ch "(" =? tok_eof)%Z with false in Hn.
          destruct (getNextToken st) as [t s1]. cbn [snd] in Hn.
          destruct (IHe s1) as (r & s2 & Hrun & Hle); [lia|]. rewrite Hrun.
          destruct r as [V|]; [|eexists _, _; split; [reflexivity|lia]].
          destruct (negb (CurTok s2 =? ch ")")).
          * eexists _, _. split; [reflexivity|].
            change (pending (LogError "expected ')'" s2)) with (pending s2). lia.
          * pose proof (getNextToken_pending s2) as Hn2.
            destruct (getNextToken s2) as [t2 s3]. cbn [snd] in Hn2.
            eexists _, _. split; [reflexivity|lia].
        + eexists _, _. split; [reflexivity|]. apply Nat.le_refl. }
    assert (forall p l st, 0 <= p -> (pending st <= S n)%nat ->
              returns_within (fun k => ParseBinOpRHS k p l) (3 * S n + 2) st) as HB.
    { intros p l st Hp H. unfold returns_within.
      replace (3 * S n + 2)%nat with (S (3 * n + 4)) by lia.
      cbv beta. rewrite ParseBinOpRHS_S.
      pose proof (GetTokPrecedence_pending st) as Hpend.
      pose proof (GetTokPrecedence_CurTok st) as Hcur.
      pose proof (GetTokPrecedence_not_eof st) as Hne.
      destruct (GetTokPrecedence st) as [TokPrec s1]. cbn [fst snd] in *.
      destruct (Z.ltb_spec TokPrec p) as [Hlt|Hge].
      - eexists _, _. split; [reflexivity|lia].
      - cbv zeta. specialize (Hne ltac:(lia)).
        pose proof (getNextToken_pending s1) as Hn. rewrite Hcur, Hne in Hn.
        destruct (getNextToken s1) as [t s2]. cbn [snd] in Hn.
        destruct (IHp s2) as (r & s3 & Hrun & Hle3); [lia|].
        rewrite (ParsePrimary_fuel _ (3 * n + 4) _ _ _ Hrun) by lia.
        destruct r as [RHS|]; [|eexists _, _; split; [reflexivity|lia]].
        pose proof (GetTokPrecedence_pending s3) as Hpend3.
        destruct (GetTokPrecedence s3) as [NextPrec s4]. cbn [snd] in Hpend3.
        destruct (TokPrec <? NextPrec).
        + destruct (IHb (TokPrec + 1) RHS s4) as (r' & s5 & Hrun' & Hle5); [lia|lia|].
          cbv beta in Hrun'.
          rewrite (ParseBinOpRHS_fuel _ (3 * n + 4) _ _ _ _ _ Hrun') by lia.
          destruct r' as [RHS'|]; [|eexists _, _; split; [reflexivity|lia]].
          destruct (IHb p (BinaryExprAST (char_of_int (CurTok s1)) l RHS') s5)
            as (r'' & s6 & Hrun'' & Hle6); [lia|lia|].
          cbv beta in Hrun''.
          rewrite (ParseBinOpRHS_fuel _ (3 * n + 4) _ _ _ _ _ Hrun'') by lia.
          eexists _, _. split; [reflexivity|lia].
        + destruct (IHb p (BinaryExprAST (char_of_int (CurTok s1)) l RHS) s4)
            as (r'' & s6 & Hrun'' & Hle6); [lia|lia|].
          cbv beta in Hrun''.
          rewrite (ParseBinOpRHS_fuel _ (3 * n + 4) _ _ _ _ _ Hrun'') by lia.
          eexists _, _. split; [reflexivity|lia]. }
    split; [|split; [exact HP|exact HB]].
    intros st H. unfold returns_within.
    replace (3 * S n + 3)%nat with (S (3 * S n + 2)) by lia.
    rewrite ParseExpression_S.
    destruct (HP st H) as (r & s1 & Hrun & Hle). rewrite Hrun.
    destruct r as [LHS|]; [|eexists _, _; split; [reflexivity|lia]].
    destruct (HB 0 LHS s1) as (r' & s2 & Hrun' & Hle'); [lia|lia|].
    cbv beta in Hrun'. rewrite Hrun'.
    eexists _, _. split; [reflexivity|lia].
Qed.

(** X9.  The parser always terminates.  Whatever the state, three
    calls for each character and token still to be looked at, and three
    more, are enough for [ParseExpression] to return, with a tree or
    with a failure; and it never leaves more to look at than it found. *)
Theorem ParseExpression_terminates st :
  exists r st',
    ParseExpression (3 * pending st + 3) st = Done r st' /\
    (pending st' <= pending st)%nat.
Proof.
  destruct (parser_returns (pending st)) as (He & _).
  exact (He st (Nat.le_refl _)).
Qed.

(** ** Termination of the driver, decided *)

Lemma agree_under_fuel {A} (f : nat -> State -> Result A) n m st a b s s' :
  (forall k, fuel_stable f k) ->
  f n st = Done a s -> f m st = Done b s' -> a = b /\ s = s'.
Proof.
  intros Hstable Hn Hm.
  pose proof (Hstable n st a s (n + m)%nat Hn ltac:(lia)) as H1.
  pose proof (Hstable m st b s' (n + m)%nat Hm ltac:(lia)) as H2.
  rewrite H1 in H2. injection H2 as -> ->. split; reflexivity.
Qed.

Lemma ParseExpression_pending fuel st r st' :
  ParseExpression fuel st = Done r st' -> (pending st' <= pending st)%nat.
Proof.
  intros H. destruct (parser_returns (pending st)) as (He & _).
  destruct (He st (Nat.le_refl _)) as (r0 & s0 & H0 & Hle).
  destruct (agree_under_fuel ParseExpression _ _ _ _ _ _ _
              (fun k => proj1 (parser_fuel_stable k)) H H0) as [_ ->].
  exact Hle.
Qed.

Lemma ParseBinOpRHS_pending fuel p l st r st' :
  0 <= p ->
  ParseBinOpRHS fuel p l st = Done r st' -> (pending st' <= pending st)%nat.
Proof.
  intros Hp H.
  destruct (parser_returns (pending st)) as (_ & _ & Hb).
  destruct (Hb p l st Hp (Nat.le_refl _)) as (r0 & s0 & H0 & Hle). cbv beta in H0.
  destruct (agree_under_fuel (fun k => ParseBinOpRHS k p l) _ _ _ _ _ _ _
              (fun k => proj2 (proj2 (proj2 (parser_fuel_stable k))) p l) H H0)
    as [_ ->].
  exact Hle.
Qed.

(** A unit that starts with a number or with ['('] costs at least that
    token, whether it parses or not. *)
Lemma ParseExpression_progress fuel st r st' :
  CurTok st = tok_number \/ CurTok st = ch "(" ->
  ParseExpression fuel st = Done r st' -> (pending st' + 1 <= pending st)%nat.
Proof.
  intros Hc H. destruct fuel as [|n]; [discriminate|].
  rewrite ParseExpression_S in H.
  assert (forall r1 s1, ParsePrimary n st = Done r1 s1 ->
                        (pending s1 + 1 <= pending st)%nat) as HP.
  { intros r1 s1 H1. destruct n as [|m]; [discriminate|].
    rewrite ParsePrimary_S in H1.
    pose proof (getNextToken_pending st) as Hn.
    assert ((CurTok st =? tok_eof) = false) as Hne
        by (destruct Hc as [-> | ->]; reflexivity).
    rewrite Hne in Hn.
    destruct (Z.eqb_spec (CurTok st) tok_number) as [En|En].
    - unfold ParseNumberExpr in H1. destruct (getNextToken st) as [t s].
      injection H1 as _ <-. exact Hn.
    - destruct Hc as [Hc|Hc]; [contradiction|]. rewrite Hc in H1.
      change (ch "(" =? ch "(") with true in H1. cbv iota in H1.
      destruct m as [|k]; [discriminate|]. rewrite ParseParenExpr_S in H1.
      destruct (getNextToken st) as [t s]. cbn [snd] in Hn.
      destruct (ParseExpression k s) as [|r2 s2] eqn:E; [discriminate|].
      apply ParseExpression_pending in E.
      destruct r2 as [V|]; [|injection H1 as _ <-; lia].
      destruct (negb (CurTok s2 =? ch ")")).
      + injection H1 as _ <-.
        change (pending (LogError "expected ')'" s2)) with (pending s2). lia.
      + pose proof (getNextToken_pending s2) as Hn2.
        destruct (getNextToken s2) as [t2 s3]. injection H1 as _ <-.
        cbn [snd] in Hn2. lia. }
  destruct (ParsePrimary n st) as [|r1 s1] eqn:E; [discriminate|].
  specialize (HP _ _ eq_refl).
  destruct r1 as [LHS|]; [|injection H as _ <-; exact HP].
  apply ParseBinOpRHS_pending in H; lia.
Qed.

Lemma Insert_pending I st : pending (Insert I st) = pending st.
Proof. unfold Insert. destruct (Builder st) as [[? ?]|]; reflexivity. Qed.

Lemma ExprAST_codegen_pending e :
  forall st, pending (snd (ExprAST_codegen e st)) = pending st.
Proof.
  intros st. destruct (ExprAST_codegen_emits e st) as (l & -> & _).
  rewrite emit_all_eq. reflexivity.
Qed.

Lemma FunctionAST_codegen_pending F st :
  pending (snd (FunctionAST_codegen F st)) = pending st.
Proof.
  unfold FunctionAST_codegen.
  assert (pending (snd (FunctionAST_codegen_entry F st)) = pending st) as He.
  { unfold FunctionAST_codegen_entry, PrototypeAST_codegen, Function_Create,
      BasicBlock_Create, SetInsertPoint.
    destruct (getFunction (Name (Proto F)) (TheModule st)); reflexivity. }
  destruct (FunctionAST_codegen_entry F st) as [TheFunction st1]. cbn [snd] in He.
  pose proof (ExprAST_codegen_pending (Body F) st1) as Hb.
  destruct (ExprAST_codegen (Body F) st1) as [[v|] st2]; cbn [snd] in *.
  - unfold CreateRet. rewrite Insert_pending. congruence.
  - change (pending (eraseFromParent TheFunction st2)) with (pending st2). congruence.
Qed.

Lemma HandleTopLevelExpression_pending fuel st u st' :
  HandleTopLevelExpression fuel st = Done u st' ->
  (pending st' <= pending st)%nat /\
  (CurTok st = tok_number \/ CurTok st = ch "(" -> (pending st' + 1 <= pending st)%nat).
Proof.
  unfold HandleTopLevelExpression, ParseTopLevelExpr. intros H.
  destruct (ParseExpression fuel st) as [|r s1] eqn:E; [discriminate|].
  pose proof (ParseExpression_pending _ _ _ _ E) as Hle.
  pose proof (fun Hc => ParseExpression_progress _ _ _ _ Hc E) as Hlt.
  assert ((pending st' <= pending s1)%nat) as Hs.
  { destruct r as [e|]; [|injection H as _ <-; apply Nat.le_refl].
    pose proof (FunctionAST_codegen_pending
                  (mkFunctionAST (mkPrototypeAST "__anon_expr" []) e) s1) as Hc.
    destruct (FunctionAST_codegen _ s1) as [[FnIR|] s2]; cbn [snd] in Hc.
    - injection H as _ <-.
      change (pending (eraseFromParent FnIR ?x)) with (pending s2).
      rewrite Hc. apply Nat.le_refl.
    - pose proof (getNextToken_pending s2) as Hn.
      destruct (getNextToken s2) as [t s3]. injection H as _ <-.
      cbn [snd] in Hn. lia. }
  split; [lia|]. intros Hc. specialize (Hlt Hc). lia.
Qed.

Lemma HandleTopLevelExpression_returns st :
  exists st', HandleTopLevelExpression (3 * pending st + 3) st = Done tt st'.
Proof.
  destruct (parser_returns (pending st)) as (He & _).
  destruct (He st (Nat.le_refl _)) as (r & s1 & Hrun & _).
  unfold HandleTopLevelExpression, ParseTopLevelExpr. rewrite Hrun.
  destruct r as [e|]; [|eexists; reflexivity].
  destruct (FunctionAST_codegen _ s1) as [[FnIR|] s2]; [eexists; reflexivity|].
  destruct (getNextToken s2) as [t s3]. eexists; reflexivity.
Qed.

Lemma MainLoop_decided_upto n :
  forall st, (pending st <= n)%nat ->
    (exists st', MainLoop (3 * n + 4) st = Done tt st') \/
    (forall fuel, MainLoop fuel st = OutOfFuel).
Proof.
  induction n as [|n IH]; intros st Hn.
  - left. change (3 * 0 + 4)%nat with 4%nat. rewrite MainLoop_S. cbv zeta.
    change (CurTok (emit (Text "ready> ") st)) with (CurTok st).
    assert (CurTok st = tok_eof) as ->.
    { revert Hn. unfold pending.
      destruct (Z.eqb_spec (CurTok st) tok_eof); [auto|lia]. }
    eexists. reflexivity.
  - set (st1 := emit (Text "ready> ") st).
    assert (pending st1 = pending st) as Hp1 by reflexivity.
    assert (CurTok st1 = CurTok st) as Hc1 by reflexivity.
    replace (3 * S n + 4)%nat with (S (3 * n + 6)) by lia.
    destruct (Z.eqb_spec (CurTok st) tok_eof) as [Eeof|Neof].
    { left. rewrite MainLoop_S. cbv zeta. fold st1. rewrite Hc1, Eeof.
      eexists. reflexivity. }
    assert (forall s2,
              (pending s2 <= n)%nat ->
              (forall fuel, MainLoop (S fuel) st = OutOfFuel \/
                            MainLoop (S fuel) st = MainLoop fuel s2) ->
              MainLoop (S (3 * n + 6)) st = MainLoop (3 * n + 6) s2 ->
              (exists st', MainLoop (S (3 * n + 6)) st = Done tt st') \/
              (forall fuel, MainLoop fuel st = OutOfFuel)) as Hnext.
    { intros s2 Hs2 Hany Hbig. destruct (IH s2 Hs2) as [[st' Hdone]|Hloop].
      - left. exists st'. rewrite Hbig.
        apply (MainLoop_fuel (3 * n + 4)); [exact Hdone|lia].
      - right. intros [|fuel]; [reflexivity|].
        destruct (Hany fuel) as [H|H]; [exact H|]. rewrite H. apply Hloop. }
    destruct ((CurTok st =? tok_error) || (CurTok st =? ch ";")) eqn:Eskip.
    { pose proof (getNextToken_pending st1) as Hg.
      rewrite Hc1 in Hg. apply Z.eqb_neq in Neof. rewrite Neof in Hg.
      assert (forall fuel, MainLoop (S fuel) st
                           = MainLoop fuel (snd (getNextToken st1))) as Hstep.
      { intros fuel. rewrite MainLoop_S. cbv zeta. fold st1. rewrite Hc1.
        rewrite Neof, Eskip. destruct (getNextToken st1). reflexivity. }
      apply (Hnext (snd (getNextToken st1))); [lia| |apply Hstep].
      intros fuel. right. apply Hstep. }
    destruct (Z.eqb_spec (CurTok st) tok_number) as [Enum|Nnum];
      [|destruct (Z.eqb_spec (CurTok st) (ch "(")) as [Epar|Npar]].
    3:{ right. intros fuel. apply MainLoop_spins. unfold starts_nothing.
        apply orb_false_iff in Eskip as [E1 E2]. rewrite E1, E2.
        apply Z.eqb_neq in Neof, Nnum, Npar. rewrite Neof, Nnum, Npar. reflexivity. }
    all: destruct (HandleTopLevelExpression_returns st1) as [s2 Hrun];
      destruct (HandleTopLevelExpression_pending _ _ _ _ Hrun) as [_ Hlt];
      specialize (Hlt ltac:(rewrite Hc1; auto));
      (apply (Hnext s2); [lia| |]);
      [ intros fuel; rewrite MainLoop_S; cbv zeta; fold st1; rewrite Hc1;
        apply Z.eqb_neq in Neof; rewrite Neof, Eskip;
        destruct (HandleTopLevelExpression fuel st1) as [|u s] eqn:E; [left; reflexivity|];
        right;
        destruct (agree_under_fuel HandleTopLevelExpression _ _ _ _ _ _ _
                    (fun k st a st' m => HandleTopLevelExpression_fuel k m st a st')
                    E Hrun) as [_ ->]; reflexivity
      | rewrite MainLoop_S; cbv zeta; fold st1; rewrite Hc1;
        apply Z.eqb_neq in Neof; rewrite Neof, Eskip;
        rewrite (HandleTopLevelExpression_fuel _ (3 * n + 6) _ _ _ Hrun) by lia;
        reflexivity ].
Qed.

(** X10.  Whether the driver stops is settled within a bound.  In any
    state, either [MainLoop] returns within three iterations for each
    character and token still to be looked at, and four more, or it
    returns under no bound at all: there is no input on which the loop
    stops only after a long time. *)
Theorem MainLoop_decided st :
  (exists st', MainLoop (3 * pending st + 4) st = Done tt st') \/
  (forall fuel, MainLoop fuel st = OutOfFuel).
Proof. apply MainLoop_decided_upto. apply Nat.le_refl. Qed.

(** * Further properties of code generation *)

(** X11.  Code generation inserts nothing: it folds.  Every leaf of a
    tree is a constant, so every request of [BinaryExprAST::codegen] is
    folded by the builder.  For a tree all of whose operators have a
    case, [codegen] returns the constant that the folder computes from
    the numbers of the tree, operands before their node and the left
    operand's before the right one's, and leaves the state, the
    insertion block included, as it was.  Conversely whatever value
    [codegen] returns is that constant, and it returns one exactly when
    every operator of the tree has a case. *)
Theorem ExprAST_codegen_folds e st :
  (forall d, constant_of e = Some d ->
             ExprAST_codegen e st = (Some (ConstantFP d), st)) /\
  (forall v st', ExprAST_codegen e st = (Some v, st') ->
                 exists d, constant_of e = Some d /\ v = ConstantFP d /\ st' = st) /\
  (is_Some (constant_of e) <-> codegen_total e = true).
Proof.
  split; [|split].
  - intros d Hd. pose proof (ExprAST_codegen_shape e st) as Hs.
    rewrite Hd in Hs. exact Hs.
  - intros v st'. apply ExprAST_codegen_constant.
  - apply constant_of_codegen_total.
Qed.

(** X12.  Code generation fails exactly on an unsupported operator, and
    says so.  [codegen] returns a null value if and only if some node of
    the tree carries an operator outside [+ - * / < > =]; and whenever
    it fails, the message "invalid binary operator" is on the error
    stream. *)
Theorem ExprAST_codegen_fails_iff e :
  forall st,
    (fst (ExprAST_codegen e st) = None <-> codegen_total e = false) /\
    (fst (ExprAST_codegen e st) = None ->
     invalid_operator_message ∈ stderr (snd (ExprAST_codegen e st))).
Proof.
  intros st. pose proof (ExprAST_codegen_shape e st) as Hs.
  pose proof (constant_of_codegen_total e) as Ht.
  destruct (constant_of e) as [d|].
  - rewrite Hs. cbn [fst snd].
    assert (codegen_total e = true) as -> by (apply Ht; eauto).
    split; [split; discriminate|discriminate].
  - destruct Hs as [l ->]. cbn [fst snd].
    assert (codegen_total e = false) as ->.
    { destruct (codegen_total e); [|reflexivity].
      destruct Ht as [_ Ht]. destruct (Ht eq_refl) as [? [=]]. }
    split; [split; reflexivity|]. intros _. rewrite emit_all_eq. cbn [stderr].
    apply elem_of_app. right. apply elem_of_cons. left. reflexivity.
Qed.

(** ** Functions *)

Lemma getFunction_name Nm M Fn : getFunction Nm M = Some Fn -> fn_name Fn = Nm.
Proof.
  unfold getFunction. intros H. apply List.find_some in H as [_ H].
  apply String.eqb_eq. exact H.
Qed.

Lemma getFunction_app Nm M1 M2 :
  getFunction Nm (M1 ++ M2)
  = match getFunction Nm M1 with
    | Some F => Some F
    | None => getFunction Nm M2
    end.
Proof.
  unfold getFunction. induction M1 as [|F M1 IH]; [reflexivity|].
  cbn [app List.find]. destruct (String.eqb (fn_name F) Nm); [reflexivity|exact IH].
Qed.

Lemma Insert_open_block Nm args blocks insts I st :
  open_block Nm args blocks insts st ->
  open_block Nm args blocks (insts ++ [I]) (Insert I st).
Proof.
  intros [EB EF]. split; [rewrite Insert_Builder; exact EB|].
  unfold Insert. rewrite EB. cbn [set_TheModule TheModule].
  rewrite getFunction_update_function by reflexivity. rewrite EF.
  cbn [fmap option_fmap option_map fn_name fn_args fn_blocks].
  rewrite alter_app_r_alt by lia. rewrite Nat.sub_diag. reflexivity.
Qed.

Lemma Insert_NamedValues I st : NamedValues (Insert I st) = NamedValues st.
Proof. unfold Insert. destruct (Builder st) as [[? ?]|]; reflexivity. Qed.

Lemma ExprAST_codegen_NamedValues e :
  forall st, NamedValues (snd (ExprAST_codegen e st)) = NamedValues st.
Proof.
  intros st. destruct (ExprAST_codegen_emits e st) as (l & -> & _).
  rewrite emit_all_eq. reflexivity.
Qed.

(** What the part of [FunctionAST::codegen] before the body leaves: the
    function, old or new, with an empty block "entry" after the blocks
    it had, the builder at that block, and a symbol table made of the
    function's arguments. *)
Lemma FunctionAST_codegen_entry_opens F st :
  open_block (Name (Proto F))
             (function_before (Proto F) (TheModule st)).1
             (function_before (Proto F) (TheModule st)).2 []
             (snd (FunctionAST_codegen_entry F st)) /\
  NamedValues (snd (FunctionAST_codegen_entry F st))
  = record_args (function_before (Proto F) (TheModule st)).1 ∅ /\
  stderr (snd (FunctionAST_codegen_entry F st)) = stderr st.
Proof.
  unfold function_before, FunctionAST_codegen_entry, PrototypeAST_codegen,
    Function_Create, BasicBlock_Create, SetInsertPoint, open_block.
  destruct (getFunction (Name (Proto F)) (TheModule st)) as [Fn|] eqn:E.
  - rewrite E.
    cbn [fst snd set_NamedValues set_Builder set_TheModule TheModule Builder
           NamedValues stderr].
    rewrite getFunction_update_function by reflexivity. rewrite E.
    cbn [fmap option_fmap option_map fn_args fn_blocks].
    rewrite (getFunction_name _ _ _ E).
    split; [split; reflexivity|]. split; reflexivity.
  - cbn [fst snd set_NamedValues set_Builder set_TheModule TheModule Builder
           NamedValues stderr].
    rewrite getFunction_app, E. cbn [getFunction List.find fn_name].
    rewrite String.eqb_refl.
    cbn [fst snd set_NamedValues set_Builder set_TheModule TheModule Builder
           NamedValues stderr fn_blocks length].
    rewrite getFunction_update_function by reflexivity.
    rewrite getFunction_app, E. cbn [getFunction List.find fn_name].
    rewrite String.eqb_refl.
    cbn [fmap option_fmap option_map fn_args fn_blocks fn_name].
    split; [split; reflexivity|]. split; reflexivity.
Qed.

(** [FunctionAST::codegen] on a body that folds to [d]. *)
Lemma FunctionAST_codegen_folded F st d :
  constant_of (Body F) = Some d ->
  fst (FunctionAST_codegen F st) = Some (Name (Proto F)) /\
  open_block (Name (Proto F))
             (function_before (Proto F) (TheModule st)).1
             (function_before (Proto F) (TheModule st)).2
             [ReturnInst (ConstantFP d)]
             (snd (FunctionAST_codegen F st)) /\
  others (Name (Proto F)) (TheModule (snd (FunctionAST_codegen F st)))
  = others (Name (Proto F)) (TheModule st) /\
  stderr (snd (FunctionAST_codegen F st)) = stderr st.
Proof.
  intros Hd. unfold FunctionAST_codegen.
  destruct (FunctionAST_codegen_entry_spec F st) as (Hn & [blk EB] & Ho).
  destruct (FunctionAST_codegen_entry_opens F st) as (Hopen & _ & Herr).
  destruct (FunctionAST_codegen_entry F st) as [Fn st1]. cbn [fst snd] in *.
  subst Fn. pose proof (ExprAST_codegen_shape (Body F) st1) as Hs.
  rewrite Hd in Hs. rewrite Hs. cbn [fst snd].
  unfold CreateRet. split; [reflexivity|]. split; [|split].
  - exact (Insert_open_block _ _ _ [] _ _ Hopen).
  - rewrite (Insert_others _ _ (Name (Proto F)) blk EB). exact Ho.
  - rewrite Insert_stderr. exact Herr.
Qed.

(** X13.  Declaring and erasing a function cancel out.  When the module
    has no function of the prototype's name, [PrototypeAST::codegen]
    returns a function of that name, which [getFunction] then finds,
    with the prototype's arguments and no block; every other name
    resolves as before; and [eraseFromParent] of the new function gives
    back the state from before the call. *)
Theorem PrototypeAST_codegen_declares P st :
  getFunction (Name P) (TheModule st) = None ->
  fst (PrototypeAST_codegen P st) = Name P /\
  getFunction (Name P) (TheModule (snd (PrototypeAST_codegen P st)))
  = Some (mkFunction (Name P) (Args P) []) /\
  (forall Nm, Nm <> Name P ->
     getFunction Nm (TheModule (snd (PrototypeAST_codegen P st)))
     = getFunction Nm (TheModule st)) /\
  eraseFromParent (Name P) (snd (PrototypeAST_codegen P st)) = st.
Proof.
  intros E. unfold PrototypeAST_codegen, Function_Create.
  cbn [fst snd set_TheModule TheModule]. split; [reflexivity|]. split; [|split].
  - rewrite getFunction_app, E. cbn [getFunction List.find fn_name].
    rewrite String.eqb_refl. reflexivity.
  - intros Nm Hne. rewrite getFunction_app.
    destruct (getFunction Nm (TheModule st)); [reflexivity|].
    cbn [getFunction List.find fn_name].
    destruct (String.eqb_spec (Name P) Nm); [congruence|reflexivity].
  - unfold eraseFromParent. cbn [set_TheModule TheModule].
    fold (others (Name P) (TheModule st ++ [mkFunction (Name P) (Args P) []])).
    rewrite others_app, (others_absent _ _ E). unfold others.
    cbn [List.filter fn_name]. rewrite String.eqb_refl. cbn [negb].
    rewrite app_nil_r. destruct st. reflexivity.
Qed.

(** X14.  What a successful definition leaves in the module.  For a body
    all of whose operators have a case, [FunctionAST::codegen] returns
    the function named by the prototype.  That function has the
    arguments and blocks it had before (those of the prototype and none,
    when it is new) and one more block at the end, named "entry", whose
    only instruction is the return of the constant the body folds to;
    the builder is left at that block, every other function of the
    module is as it was, and nothing is printed. *)
Theorem FunctionAST_codegen_defines F st d :
  constant_of (Body F) = Some d ->
  fst (FunctionAST_codegen F st) = Some (Name (Proto F)) /\
  open_block (Name (Proto F))
             (function_before (Proto F) (TheModule st)).1
             (function_before (Proto F) (TheModule st)).2
             [ReturnInst (ConstantFP d)]
             (snd (FunctionAST_codegen F st)) /\
  others (Name (Proto F)) (TheModule (snd (FunctionAST_codegen F st)))
  = others (Name (Proto F)) (TheModule st) /\
  stderr (snd (FunctionAST_codegen F st)) = stderr st.
Proof. exact (FunctionAST_codegen_folded F st d). Qed.

Lemma record_args_snoc l a m :
  record_args (l ++ [a]) m = <[a := Argument (length l) a]> (record_args l m).
Proof.
  unfold record_args. rewrite imap_app, foldl_app. cbn [imap foldl fst snd].
  rewrite Nat.add_0_r. reflexivity.
Qed.

Lemma record_args_lookup l :
  forall n,
    (n ∈ l <-> is_Some (record_args l ∅ !! n)) /\
    (forall v, record_args l ∅ !! n = Some v ->
               exists i, l !! i = Some n /\ v = Argument i n).
Proof.
  induction l as [|a l IH] using rev_ind; intros n.
  - unfold record_args. cbn [imap foldl]. rewrite lookup_empty. split.
    + split; [intros H; inversion H|intros [? [=]]].
    + intros v [=].
  - rewrite record_args_snoc. destruct (IH n) as [Hin Hval].
    destruct (decide (a = n)) as [->|Hne].
    + rewrite lookup_insert_eq. split.
      * split; [eauto|]. intros _. apply elem_of_app. right.
        apply list_elem_of_singleton. reflexivity.
      * intros v [= <-]. exists (length l). split; [|reflexivity].
        rewrite lookup_app_r by lia. rewrite Nat.sub_diag. reflexivity.
    + rewrite lookup_insert_ne by exact Hne. split.
      * rewrite elem_of_app, list_elem_of_singleton, <- Hin.
        split; [intros [H|H]; [exact H|congruence]|auto].
      * intros v Hv. destruct (Hval v Hv) as (i & Hi & ->). exists i.
        split; [|reflexivity]. apply lookup_app_l_Some. exact Hi.
Qed.

(** X15.  The symbol table is rebuilt for each function.  Whatever
    [NamedValues] held and whether the body generates or not, after
    [FunctionAST::codegen] it holds exactly the arguments of the
    function: a name is bound if and only if it is the name of an
    argument, and it is bound to an argument of that name. *)
Theorem FunctionAST_codegen_NamedValues F st :
  NamedValues (snd (FunctionAST_codegen F st))
  = record_args (function_before (Proto F) (TheModule st)).1 ∅ /\
  forall n,
    (n ∈ (function_before (Proto F) (TheModule st)).1
     <-> is_Some (NamedValues (snd (FunctionAST_codegen F st)) !! n)) /\
    (forall v, NamedValues (snd (FunctionAST_codegen F st)) !! n = Some v ->
               exists i, (function_before (Proto F) (TheModule st)).1 !! i = Some n /\
                         v = Argument i n).
Proof.
  assert (NamedValues (snd (FunctionAST_codegen F st))
          = record_args (function_before (Proto F) (TheModule st)).1 ∅) as H.
  { unfold FunctionAST_codegen.
    destruct (FunctionAST_codegen_entry_opens F st) as (_ & HNV & _).
    destruct (FunctionAST_codegen_entry F st) as [Fn st1]. cbn [snd] in HNV.
    pose proof (ExprAST_codegen_NamedValues (Body F) st1) as He.
    destruct (ExprAST_codegen (Body F) st1) as [[RetVal|] st2]; cbn [snd] in *.
    - unfold CreateRet. rewrite Insert_NamedValues. congruence.
    - unfold eraseFromParent. cbn [NamedValues set_TheModule]. congruence. }
  split; [exact H|]. rewrite H. apply record_args_lookup.
Qed.

(** * Further properties of the driver *)

(** ** What the parser can touch *)

Lemma parser_only_refl st : parser_only st st.
Proof.
  repeat (split; [reflexivity|]). exists []. split; [symmetry; apply app_nil_r|].
  intros o H. inversion H.
Qed.

Lemma parser_only_trans st1 st2 st3 :
  parser_only st1 st2 -> parser_only st2 st3 -> parser_only st1 st3.
Proof.
  intros (M1 & B1 & N1 & l1 & E1 & H1) (M2 & B2 & N2 & l2 & E2 & H2).
  split; [congruence|]. split; [congruence|]. split; [congruence|].
  exists (l1 ++ l2). split; [rewrite E2, E1, app_assoc; reflexivity|].
  intros o Ho. apply elem_of_app in Ho as [Ho|Ho]; auto.
Qed.

Lemma parser_only_emit o st : o ∈ parser_messages -> parser_only st (emit o st).
Proof.
  intros Ho. repeat (split; [reflexivity|]). exists [o]. split; [reflexivity|].
  intros o' H. apply list_elem_of_singleton in H as ->. exact Ho.
Qed.

Lemma gettok_rest_silent st :
  TheModule (snd (gettok_rest st)) = TheModule st /\
  Builder (snd (gettok_rest st)) = Builder st /\
  NamedValues (snd (gettok_rest st)) = NamedValues st /\
  stderr (snd (gettok_rest st)) = stderr st.
Proof.
  unfold gettok_rest. destruct (isdigit (LastChar st) || (LastChar st =? ch ".")).
  - destruct (number_run EmptyString (LastChar st) (stdin st)) as [[NumStr c'] input'].
    repeat split; reflexivity.
  - destruct (LastChar st =? EOF); [repeat split; reflexivity|].
    destruct (getchar (stdin st)) as [c' input']. repeat split; reflexivity.
Qed.

Lemma gettok_parser_only st : parser_only st (snd (gettok st)).
Proof.
  unfold gettok. destruct (skip_space (LastChar st) (stdin st)) as [c input].
  cbn [LastChar set_input stdin emit].
  assert (forall s, parser_only st s -> parser_only st (snd (gettok_rest s))) as Hrest.
  { intros s Hs. apply (parser_only_trans _ s); [exact Hs|].
    destruct (gettok_rest_silent s) as (HM & HB & HN & HE).
    repeat (split; [assumption|]). exists []. rewrite app_nil_r.
    split; [exact HE|]. intros o H. inversion H. }
  assert (parser_only st (set_input c input st)) as H1.
  { repeat (split; [reflexivity|]). exists []. split; [symmetry; apply app_nil_r|].
    intros o H. inversion H. }
  destruct (isalpha c); [|exact (Hrest _ H1)].
  destruct (getchar input) as [c' input'].
  assert (parser_only st
            (set_input c' input'
               (emit (Text ("Only numeric literals and operators are permitted." +:+ LF))
                  (set_input c input st)))) as H2.
  { repeat (split; [reflexivity|]). eexists [_]. split; [reflexivity|].
    intros o H. apply list_elem_of_singleton in H as ->.
    apply elem_of_cons. left. reflexivity. }
  cbn [LastChar set_input].
  destruct (isalnum c'); [exact H2|exact (Hrest _ H2)].
Qed.

Lemma getNextToken_parser_only st : parser_only st (snd (getNextToken st)).
Proof.
  unfold getNextToken. pose proof (gettok_parser_only st) as H.
  destruct (gettok st) as [t s]. cbn [snd] in *.
  apply (parser_only_trans _ s); [exact H|].
  repeat (split; [reflexivity|]). exists []. split; [symmetry; apply app_nil_r|].
  intros o Ho. inversion Ho.
Qed.

Lemma GetTokPrecedence_parser_only st : parser_only st (snd (GetTokPrecedence st)).
Proof.
  destruct (GetTokPrecedence_table st) as (tbl & -> & _).
  repeat (split; [reflexivity|]). exists []. split; [symmetry; apply app_nil_r|].
  intros o Ho. inversion Ho.
Qed.

Lemma parser_only_unexpected st :
  parser_only st (LogError "unexpected token when expecting an expression" st).
Proof.
  apply parser_only_emit. apply elem_of_cons. right.
  apply elem_of_cons. left. reflexivity.
Qed.

Lemma parser_only_expected st : parser_only st (LogError "expected ')'" st).
Proof.
  apply parser_only_emit. apply elem_of_cons. right. apply elem_of_cons. right.
  apply elem_of_cons. left. reflexivity.
Qed.

Lemma parser_frame n :
  (forall st r st', ParseExpression n st = Done r st' -> parser_only st st') /\
  (forall st r st', ParsePrimary n st = Done r st' -> parser_only st st') /\
  (forall st r st', ParseParenExpr n st = Done r st' -> parser_only st st') /\
  (forall p l st r st', ParseBinOpRHS n p l st = Done r st' -> parser_only st st').
Proof.
  induction n as [|n (IHe & IHp & IHq & IHb)].
  - repeat split; intros; discriminate.
  - split; [|split; [|split]].
    + intros st r st' H. rewrite ParseExpression_S in H.
      destruct (ParsePrimary n st) as [|[LHS|] s1] eqn:E; [discriminate| |].
      * exact (parser_only_trans _ _ _ (IHp _ _ _ E) (IHb _ _ _ _ _ H)).
      * injection H as <- <-. exact (IHp _ _ _ E).
    + intros st r st' H. rewrite ParsePrimary_S in H.
      destruct (CurTok st =? tok_number).
      * unfold ParseNumberExpr in H. pose proof (getNextToken_parser_only st) as Hn.
        destruct (getNextToken st) as [t s1]. injection H as <- <-. exact Hn.
      * destruct (CurTok st =? ch "("); [exact (IHq _ _ _ H)|].
        injection H as <- <-. apply parser_only_unexpected.
    + intros st r st' H. rewrite ParseParenExpr_S in H.
      pose proof (getNextToken_parser_only st) as Hn.
      destruct (getNextToken st) as [t s1]. cbn [snd] in Hn.
      destruct (ParseExpression n s1) as [|[V|] s2] eqn:E; [discriminate| |].
      * pose proof (parser_only_trans _ _ _ Hn (IHe _ _ _ E)) as H2.
        destruct (negb (CurTok s2 =? ch ")")).
        -- injection H as <- <-.
           exact (parser_only_trans _ _ _ H2 (parser_only_expected s2)).
        -- pose proof (getNextToken_parser_only s2) as Hn2.
           destruct (getNextToken s2) as [t2 s3]. injection H as <- <-.
           exact (parser_only_trans _ _ _ H2 Hn2).
      * injection H as <- <-. exact (parser_only_trans _ _ _ Hn (IHe _ _ _ E)).
    + intros p l st r st' H. rewrite ParseBinOpRHS_S in H.
      pose proof (GetTokPrecedence_parser_only st) as H1.
      destruct (GetTokPrecedence st) as [TokPrec s1]. cbn [snd] in H1.
      destruct (TokPrec <? p); [injection H as <- <-; exact H1|].
      cbv zeta in H. pose proof (getNextToken_parser_only s1) as Hn.
      destruct (getNextToken s1) as [t s2]. cbn [snd] in Hn.
      destruct (ParsePrimary n s2) as [|[RHS|] s3] eqn:E; [discriminate| |].
      * pose proof (parser_only_trans _ _ _ H1
                      (parser_only_trans _ _ _ Hn (IHp _ _ _ E))) as H3.
        pose proof (GetTokPrecedence_parser_only s3) as H4.
        destruct (GetTokPrecedence s3) as [NextPrec s4]. cbn [snd] in H4.
        pose proof (parser_only_trans _ _ _ H3 H4) as H4'.
        destruct (TokPrec <? NextPrec).
        -- destruct (ParseBinOpRHS n (TokPrec + 1) RHS s4) as [|[RHS'|] s5] eqn:E2;
             [discriminate| |].
           ++ exact (parser_only_trans _ _ _ H4'
                       (parser_only_trans _ _ _ (IHb _ _ _ _ _ E2) (IHb _ _ _ _ _ H))).
           ++ injection H as <- <-.
              exact (parser_only_trans _ _ _ H4' (IHb _ _ _ _ _ E2)).
        -- exact (parser_only_trans _ _ _ H4' (IHb _ _ _ _ _ H)).
      * injection H as <- <-.
        exact (parser_only_trans _ _ _ H1 (parser_only_trans _ _ _ Hn (IHp _ _ _ E))).
Qed.

(** X16.  The parser only reads.  Whatever [ParseExpression] returns, it
    leaves the module, the builder and the symbol table as they were,
    and everything it has written to the error stream is the message of
    the lexer or one of the two messages of the parser. *)
Theorem ParseExpression_touches_only_its_own fuel st r st' :
  ParseExpression fuel st = Done r st' -> parser_only st st'.
Proof. intros H. destruct (parser_frame fuel) as (He & _). exact (He _ _ _ H). Qed.

(** ** What the driver keeps true *)

Lemma invalid_operator_not_parser_message :
  invalid_operator_message ∉ parser_messages.
Proof.
  unfold parser_messages. rewrite !not_elem_of_cons.
  repeat split; try (intros E; cbv in E; discriminate E). apply not_elem_of_nil.
Qed.

Lemma quiet_parser_only st st' :
  parser_only st st' ->
  invalid_operator_message ∉ stderr st -> invalid_operator_message ∉ stderr st'.
Proof.
  intros (_ & _ & _ & l & HE & Hl) Hq. rewrite HE. apply not_elem_of_app.
  split; [exact Hq|]. intros Hin.
  exact (invalid_operator_not_parser_message (Hl _ Hin)).
Qed.

Lemma driver_ok_parser_only st st' :
  parser_only st st' -> table_ok st' -> driver_ok st -> driver_ok st'.
Proof.
  intros Hp Ht (_ & HM & Hq). split; [exact Ht|]. split.
  - destruct Hp as (-> & _). exact HM.
  - exact (quiet_parser_only _ _ Hp Hq).
Qed.

(** An expression that parses and folds is compiled, printed and
    erased. *)
Lemma HandleTopLevelExpression_compiled fuel st e st1 d :
  ParseExpression fuel st = Done (Some e) st1 ->
  constant_of e = Some d ->
  getFunction "__anon_expr" (TheModule st) = None ->
  exists st',
    HandleTopLevelExpression fuel st = Done tt st' /\
    stderr st' = stderr st1 ++ [Text ("Generated IR and result:" +:+ LF);
                               printed_anon_expr [ReturnInst (ConstantFP d)];
                               Text LF] /\
    TheModule st' = TheModule st.
Proof.
  intros Hp Hd Hf. unfold HandleTopLevelExpression, ParseTopLevelExpr. rewrite Hp.
  destruct (parser_frame fuel) as (He & _). destruct (He _ _ _ Hp) as (HM & _).
  destruct (FunctionAST_codegen_folded
              (mkFunctionAST (mkPrototypeAST "__anon_expr" []) e) st1 d Hd)
    as (Hfst & [_ Hget] & Ho & Herr).
  destruct (FunctionAST_codegen (mkFunctionAST (mkPrototypeAST "__anon_expr" []) e) st1)
    as [r st2].
  cbn [fst snd Proto Name Args] in *. subst r.
  unfold function_before in Hget. cbn [Name Args] in Hget.
  rewrite HM, Hf in Hget. cbn [fst snd app] in Hget.
  eexists. split; [reflexivity|]. unfold eraseFromParent.
  cbn [stderr set_TheModule emit TheModule]. split.
  - rewrite Hget, Herr. unfold printed_anon_expr. rewrite <- !app_assoc. reflexivity.
  - fold (others "__anon_expr" (TheModule st2)). rewrite Ho, HM.
    apply others_absent. exact Hf.
Qed.

Lemma HandleTopLevelExpression_driver_ok fuel st st' :
  driver_ok st -> HandleTopLevelExpression fuel st = Done tt st' -> driver_ok st'.
Proof.
  intros Hok H.
  pose proof (HandleTopLevelExpression_table_ok fuel st st' (proj1 Hok) H) as Ht.
  destruct (ParseExpression fuel st) as [|[e|] st1] eqn:Hp.
  - unfold HandleTopLevelExpression, ParseTopLevelExpr in H. rewrite Hp in H.
    discriminate.
  - destruct (parser_operators fuel) as (Ho & _).
    destruct (Ho _ _ _ (proj1 Hok) Hp) as [_ Htree].
    pose proof (Htree e eq_refl) as Hct.
    apply constant_of_codegen_total in Hct as [d Hd].
    destruct (parser_frame fuel) as (He & _). pose proof (He _ _ _ Hp) as Hfr.
    destruct Hok as (_ & HM & Hq).
    destruct (HandleTopLevelExpression_compiled fuel st e st1 d Hp Hd)
      as (s & Hrun & Herr & HM'); [rewrite HM; reflexivity|].
    rewrite Hrun in H. injection H as <-. split; [exact Ht|]. split; [congruence|].
    rewrite Herr. apply not_elem_of_app. split; [exact (quiet_parser_only _ _ Hfr Hq)|].
    rewrite !not_elem_of_cons.
    repeat split; try (intros E; cbv in E; discriminate E). apply not_elem_of_nil.
  - unfold HandleTopLevelExpression, ParseTopLevelExpr in H. rewrite Hp in H.
    injection H as <-. destruct (parser_frame fuel) as (He & _).
    exact (driver_ok_parser_only _ _ (He _ _ _ Hp) Ht Hok).
Qed.

Lemma MainLoop_driver_ok fuel :
  forall st st', driver_ok st -> MainLoop fuel st = Done tt st' -> driver_ok st'.
Proof.
  induction fuel as [|n IH]; intros st st' Hok H; [discriminate|].
  rewrite MainLoop_S in H. cbv zeta in H.
  assert (driver_ok (emit (Text "ready> ") st)) as Hok1.
  { destruct Hok as (Ht & HM & Hq). split; [exact Ht|]. split; [exact HM|].
    cbn [stderr emit]. apply not_elem_of_app. split; [exact Hq|].
    rewrite list_elem_of_singleton. intros E. cbv in E. discriminate E. }
  revert H Hok1. generalize (emit (Text "ready> ") st). intros st1 H Hok1.
  destruct (CurTok st1 =? tok_eof); [injection H as <-; exact Hok1|].
  destruct ((CurTok st1 =? tok_error) || (CurTok st1 =? ch ";")).
  - pose proof (getNextToken_parser_only st1) as Hn.
    pose proof (table_ok_getNextToken st1 (proj1 Hok1)) as Ht.
    destruct (getNextToken st1) as [t s2]. cbn [snd] in *.
    exact (IH s2 st' (driver_ok_parser_only _ _ Hn Ht Hok1) H).
  - destruct (HandleTopLevelExpression n st1) as [|[] s2] eqn:E; [discriminate|].
    exact (IH s2 st' (HandleTopLevelExpression_driver_ok _ _ _ Hok1 E) H).
Qed.

Lemma main_init_driver_ok input : driver_ok (main_init input).
Proof.
  split; [exact (main_init_operators_only input)|].
  unfold main_init. cbv zeta.
  pose proof (getNextToken_parser_only
                (emit (Text "ready> ") (install_operators (startup input))))
    as (_ & _ & _ & l & HE & Hl).
  destruct (getNextToken (emit (Text "ready> ") (install_operators (startup input))))
    as [t s].
  cbn [snd] in *. split; [reflexivity|].
  change (stderr (InitializeModule s)) with (stderr s). rewrite HE.
  apply not_elem_of_app. split.
  - change (stderr (emit (Text "ready> ") (install_operators (startup input))))
      with [Text "ready> "].
    rewrite list_elem_of_singleton. intros E. cbv in E. discriminate E.
  - intros Hin. exact (invalid_operator_not_parser_message (Hl _ Hin)).
Qed.

(** X17.  An expression that parses is compiled, printed and erased.
    When the parser returns a tree all of whose operators have a case
    and the module holds no function "__anon_expr",
    [HandleTopLevelExpression] returns, having written after the output
    of the parser the header line, the function "__anon_expr" whose one
    block "entry" is the single return of the constant the tree folds
    to, and a line end; and the module is what it was before. *)
Theorem HandleTopLevelExpression_compiles fuel st e st1 d :
  ParseExpression fuel st = Done (Some e) st1 ->
  constant_of e = Some d ->
  getFunction "__anon_expr" (TheModule st) = None ->
  exists st',
    HandleTopLevelExpression fuel st = Done tt st' /\
    stderr st' = stderr st1 ++ [Text ("Generated IR and result:" +:+ LF);
                               printed_anon_expr [ReturnInst (ConstantFP d)];
                               Text LF] /\
    TheModule st' = TheModule st.
Proof. exact (HandleTopLevelExpression_compiled fuel st e st1 d). Qed.

(** X18.  The module printed at the end is always empty.  Whatever the
    input, when [main] returns, it returns 0, the module holds no
    function (every function compiled on the way has been erased), and
    the last thing written is the print of that empty module. *)
Theorem main_prints_empty_module fuel input rc st :
  main fuel input = Done rc st ->
  rc = 0 /\ TheModule st = [] /\ last (stderr st) = Some (PrintModule []).
Proof.
  unfold main. destruct (MainLoop fuel (main_init input)) as [|[] s] eqn:E;
    [discriminate|].
  intros [= <- <-].
  destruct (MainLoop_driver_ok _ _ _ (main_init_driver_ok input) E) as (_ & HM & _).
  split; [reflexivity|]. cbn [TheModule stderr emit]. split; [exact HM|].
  rewrite HM. apply last_snoc.
Qed.

(** X19.  The message "invalid binary operator" is never printed.  The
    tokens that [GetTokPrecedence] gives a positive precedence are the
    operators [main] installs, each of which has a case in
    [BinaryExprAST::codegen]; so in no run of [main] that returns does
    the error stream hold that message. *)
Theorem main_never_reports_invalid_operator fuel input rc st :
  main fuel input = Done rc st ->
  invalid_operator_message ∉ stderr st.
Proof.
  unfold main. destruct (MainLoop fuel (main_init input)) as [|[] s] eqn:E;
    [discriminate|].
  intros [= <- <-].
  destruct (MainLoop_driver_ok _ _ _ (main_init_driver_ok input) E) as (_ & _ & Hq).
  cbn [stderr emit]. apply not_elem_of_app. split; [exact Hq|].
  rewrite list_elem_of_singleton. intros H. cbv in H. discriminate H.
Qed.

(** X20.  The precedence table of [main].  In the state in which the
    loop starts, [GetTokPrecedence] answers 10 for ['<'], ['>'] and
    ['='], 20 for ['+'] and ['-'], 40 for ['*'] and ['/'], and -1 for
    every other token. *)
Theorem main_precedence_table c :
  precedence_of c
  = if (c =? ch "<") || (c =? ch ">") || (c =? ch "=") then 10
    else if (c =? ch "+") || (c =? ch "-") then 20
    else if (c =? ch "*") || (c =? ch "/") then 40
    else -1.
Proof.
  destruct (decide (c ∈ operators)) as [Hin|Hout].
  - each_operator Hin; vm_compute; reflexivity.
  - assert (precedence_of c = -1) as ->.
    { destruct (GetTokPrecedence_answer (set_CurTok c (main_init ""))) as [H|H];
        [exact H|].
      exfalso. apply Hout. apply positive_precedence_iff. exact H. }
    unfold operators in Hout. rewrite !not_elem_of_cons in Hout.
    destruct Hout as (H1 & H2 & H3 & H4 & H5 & H6 & H7 & _).
    apply Z.eqb_neq in H1, H2, H3, H4, H5, H6, H7.
    rewrite H1, H2, H3, H4, H5, H6, H7. reflexivity.
Qed.

End Calculator.

Arguments OutOfFuel {double A}.
Arguments Done {double A} a st.

(** * Closed instances

    Everything above holds for any representation of [double], any
    [strtod] and any arithmetic of the folder.  The instances below take
    a number to be its own lexeme, so that [strtod] is the identity on
    strings and the folder is the one on lexemes, and run the statements
    that have hypotheses on concrete operators, trees and states. *)

(** ['+'] below ['*'] in [2 + 25 * 2] and in [2 * 25 + 2]. *)
Lemma precedence_decides_nesting_witness :
  ch "+" ∈ operators /\ ch "*" ∈ operators /\
  (precedence_of id "0" (ch "+") <? precedence_of id "0" (ch "*")) = true /\
  parses_to id "0" "2 + 25 * 2"
    (Bin (ch "+") (Num id "2") (Bin (ch "*") (Num id "25") (Num id "2"))) /\
  parses_to id "0" "2 * 25 + 2"
    (Bin (ch "+") (Bin (ch "*") (Num id "2") (Num id "25")) (Num id "2")).
Proof.
  assert (ch "+" ∈ operators) as Hlo by (unfold operators; repeat constructor).
  assert (ch "*" ∈ operators) as Hhi by (unfold operators; repeat constructor).
  split; [exact Hlo|]. split; [exact Hhi|]. split; [reflexivity|].
  destruct (precedence_decides_nesting id "0") as (_ & _ & H & _).
  exact (H (ch "+") (ch "*") Hlo Hhi eq_refl).
Defined.

(** The operator ['-'] and the inputs [8 - 3 - 2] and [(8 - 3) - 2]. *)
Lemma equal_precedence_associates_left_witness :
  ch "-" ∈ operators /\
  precedence_of id "0" (ch "-") = precedence_of id "0" (ch "-") /\
  parses_to id "0" "8 - 3 - 2"
    (Bin (ch "-") (Bin (ch "-") (Num id "8") (Num id "3")) (Num id "2")) /\
  parses_to id "0" "(8 - 3) - 2"
    (Bin (ch "-") (Bin (ch "-") (Num id "8") (Num id "3")) (Num id "2")).
Proof.
  assert (ch "-" ∈ operators) as Hin by (unfold operators; repeat constructor).
  split; [exact Hin|]. split; [reflexivity|].
  destruct (equal_precedence_associates_left id "0") as (_ & H).
  exact (H (ch "-") (ch "-") Hin Hin eq_refl).
Defined.

(** ['<'] inside the parentheses and ['/'] outside. *)
Lemma parentheses_override_precedence_witness :
  ch "<" ∈ operators /\ ch "/" ∈ operators /\
  (precedence_of id "0" (ch "<") <? precedence_of id "0" (ch "/")) = true /\
  parses_to id "0" "(1 < 2) / 3"
    (Bin (ch "/") (Bin (ch "<") (Num id "1") (Num id "2")) (Num id "3")) /\
  parses_to id "0" "1 < 2 / 3"
    (Bin (ch "<") (Num id "1") (Bin (ch "/") (Num id "2") (Num id "3"))).
Proof.
  assert (ch "<" ∈ operators) as Hlo by (unfold operators; repeat constructor).
  assert (ch "/" ∈ operators) as Hhi by (unfold operators; repeat constructor).
  split; [exact Hlo|]. split; [exact Hhi|]. split; [reflexivity|].
  destruct (parentheses_override_precedence id "0") as (_ & _ & _ & _ & H).
  exact (H (ch "<") (ch "/") Hlo Hhi eq_refl).
Defined.



(** The group [(1 + 2] with the end-of-input token after it: the state
    is the one [main] starts in, where ['('] is the current token. *)
Lemma unclosed_parenthesis_is_reported_witness :
  let st := main_init id "0" "(1 + 2" in
  let V := Bin (ch "+") (Num id "1") (Num id "2") in
  let st2 := match ParseExpression id 8 (snd (getNextToken id st)) with
             | Done _ s => s
             | OutOfFuel => st
             end in
  ParseExpression id 8 (snd (getNextToken id st)) = Done (Some V) st2 /\
  CurTok st2 <> ch ")" /\
  ParseParenExpr id 9 st = Done None (LogError "expected ')'" st2).
Proof.
  intros st V st2.
  assert (ParseExpression id 8 (snd (getNextToken id st)) = Done (Some V) st2)
    as Hparse by (vm_compute; reflexivity).
  assert (CurTok st2 <> ch ")") as Hne by (vm_compute; discriminate).
  split; [exact Hparse|]. split; [exact Hne|].
  destruct (unclosed_parenthesis_is_reported id "0") as (H & _).
  exact (H 8%nat st V st2 Hparse Hne).
Defined.

(** A definition whose body uses ['%'], an operator without a codegen
    case, compiled into the empty module. *)
Lemma failed_body_leaves_no_function_witness :
  let F := mkFunctionAST (mkPrototypeAST "__anon_expr" [])
             (BinaryExprAST (ch "%") (NumberExprAST "1") (NumberExprAST "2")) in
  let st := main_init id "0" "" in
  fst (ExprAST_codegen (Body F) (snd (FunctionAST_codegen_entry F st))) = None /\
  fst (FunctionAST_codegen F st) = None /\
  getFunction "__anon_expr" (TheModule (snd (FunctionAST_codegen F st))) = None.
Proof.
  intros F st.
  assert (fst (ExprAST_codegen (Body F) (snd (FunctionAST_codegen_entry F st)))
          = None) as Hfail by (vm_compute; reflexivity).
  split; [exact Hfail|].
  destruct (failed_body_leaves_no_function F st Hfail) as (Hres & Hgone & _).
  split; [exact Hres|exact Hgone].
Defined.

(** The parse of [1 + 2 * 3] as [main] starts it, and the generation of
    its tree in that same state. *)
Lemma parsed_tree_always_generates_witness :
  let st := main_init id "0" "1 + 2 * 3" in
  let e := Bin (ch "+") (Num id "1") (Bin (ch "*") (Num id "2") (Num id "3")) in
  let st' := match ParseExpression id 12 st with
             | Done _ s => s
             | OutOfFuel => st
             end in
  startup_operators_only (BinopPrecedence st) /\
  ParseExpression id 12 st = Done (Some e) st' /\
  codegen_total e = true /\
  exists v, fst (ExprAST_codegen e st') = Some v.
Proof.
  intros st e st'.
  pose proof (main_init_operators_only id "0" "1 + 2 * 3") as Htbl.
  assert (ParseExpression id 12 st = Done (Some e) st') as Hparse
      by (vm_compute; reflexivity).
  split; [exact Htbl|]. split; [exact Hparse|].
  destruct (parsed_tree_always_generates id 12 st e st' Htbl Hparse)
    as (_ & Htotal & Hgen).
  split; [exact Htotal|].
  destruct (Hgen st') as (v & Hv & _). exists v. exact Hv.
Defined.

(** ** Instances of the further properties *)

(** The literal [12.5] before [+3]. *)
Lemma gettok_number_witness :
  let st := set_input (ch "1") "2.5+3" (startup "0" "") in
  LastChar st = int_of_ascii "1"%char /\
  isnumeric (int_of_ascii "1"%char) = true /\
  all_chars isnumeric "2.5" = true /\
  stdin st = "2.5" +:+ "+3" /\
  isnumeric (fst (getchar "+3")) = false /\
  gettok id st = (tok_number, set_NumVal "12.5" (set_input (ch "+") "3" st)).
Proof.
  intros st.
  split; [reflexivity|]. split; [reflexivity|]. split; [reflexivity|].
  split; [reflexivity|]. split; [reflexivity|].
  exact (gettok_number id st "1"%char "2.5" "+3"
           eq_refl eq_refl eq_refl eq_refl eq_refl).
Defined.

(** Two blanks before [7;], after the blank [LastChar] starts with. *)
Lemma gettok_skips_white_space_witness :
  let st := startup "0" "  7;" in
  isspace (LastChar st) = true /\
  all_chars isspace "  " = true /\
  stdin st = "  " +:+ "7;" /\
  gettok id st = gettok id (set_input (ch "7") ";" st).
Proof.
  intros st.
  split; [reflexivity|]. split; [reflexivity|]. split; [reflexivity|].
  exact (gettok_skips_white_space id st "  " "7;" eq_refl eq_refl eq_refl).
Defined.

(** An input of blanks only. *)
Lemma gettok_eof_stable_witness :
  let st := startup "0" "  " in
  fst (gettok id st) = tok_eof /\
  LastChar (snd (gettok id st)) = EOF /\
  gettok id (snd (gettok id st)) = (tok_eof, snd (gettok id st)).
Proof.
  intros st.
  assert (fst (gettok id st) = tok_eof) as H by reflexivity.
  split; [exact H|]. exact (gettok_eof_stable id st H).
Defined.

(** The first token of the input [+]. *)
Lemma gettok_token_range_witness :
  let st := startup "0" "+" in
  valid_char (LastChar st) /\
  valid_char (LastChar (snd (gettok id st))) /\
  (fst (gettok id st) = tok_eof \/ fst (gettok id st) = tok_error \/
   fst (gettok id st) = tok_number \/
   (0 <= fst (gettok id st) <= 255 /\ isalnum (fst (gettok id st)) = false /\
    fst (gettok id st) <> ch ".")).
Proof.
  intros st.
  assert (valid_char (LastChar st)) as H
      by (right; vm_compute; split; discriminate).
  split; [exact H|]. exact (gettok_token_range id st H).
Defined.

(** The end-of-input token, which is outside ASCII. *)
Lemma GetTokPrecedence_harmless_witness :
  let st := set_CurTok tok_eof (startup "0" "") in
  isascii (CurTok st) = false /\ GetTokPrecedence st = (-1, st).
Proof.
  intros st. split; [reflexivity|].
  destruct (GetTokPrecedence_harmless st) as (_ & H & _). exact (H eq_refl).
Defined.

(** The input [)], where no expression can start. *)
Lemma parse_failure_is_reported_witness :
  let st := main_init id "0" ")" in
  let st' := LogError "unexpected token when expecting an expression" st in
  ParseExpression id 5 st = Done None st' /\
  (last (stderr st')
   = Some (Text ("Error: unexpected token when expecting an expression" +:+ LF)) \/
   last (stderr st') = Some (Text ("Error: expected ')'" +:+ LF))).
Proof.
  intros st st'.
  assert (ParseExpression id 5 st = Done None st') as H by (vm_compute; reflexivity).
  split; [exact H|]. exact (parse_failure_is_reported id 5%nat st st' H).
Defined.

(** The expression [1+2] stops at the [;] after it. *)
Lemma ParseExpression_stops_at_non_operator_witness :
  let st := main_init id "0" "1+2;" in
  let e := Bin (ch "+") (Num id "1") (Num id "2") in
  let st' := match ParseExpression id 12 st with
             | Done _ s => s
             | OutOfFuel => st
             end in
  ParseExpression id 12 st = Done (Some e) st' /\
  GetTokPrecedence st' = (-1, st').
Proof.
  intros st e st'.
  assert (ParseExpression id 12 st = Done (Some e) st') as H
      by (vm_compute; reflexivity).
  split; [exact H|].
  exact (ParseExpression_stops_at_non_operator id 12%nat st e st' H).
Defined.

(** The tree of [1 + 2 * 3] generated into the open entry block of
    [__anon_expr]. *)
Lemma ExprAST_codegen_folds_witness :
  let e := BinaryExprAST (ch "+") (NumberExprAST "1")
             (BinaryExprAST (ch "*") (NumberExprAST "2") (NumberExprAST "3")) in
  let st := snd (FunctionAST_codegen_entry
                   (mkFunctionAST (mkPrototypeAST "__anon_expr" []) e)
                   (main_init id "0" "")) in
  constant_of e = Some "(1 + (2 * 3))" /\
  ExprAST_codegen e st = (Some (ConstantFP "(1 + (2 * 3))"), st) /\
  exists d, constant_of e = Some d /\
            ConstantFP "(1 + (2 * 3))" = ConstantFP d /\ st = st.
Proof.
  intros e st.
  assert (constant_of e = Some "(1 + (2 * 3))") as Hd by reflexivity.
  split; [exact Hd|].
  destruct (ExprAST_codegen_folds e st) as (Hgen & Hback & _).
  split; [exact (Hgen _ Hd)|]. exact (Hback _ _ (Hgen _ Hd)).
Defined.

(** A tree with ['%'], an operator without a case. *)
Lemma ExprAST_codegen_fails_iff_witness :
  let e := BinaryExprAST (ch "%") (NumberExprAST "1") (NumberExprAST "2") in
  let st := main_init id "0" "" in
  fst (ExprAST_codegen e st) = None /\
  codegen_total e = false /\
  invalid_operator_message ∈ stderr (snd (ExprAST_codegen e st)).
Proof.
  intros e st.
  assert (fst (ExprAST_codegen e st) = None) as Hf by (vm_compute; reflexivity).
  split; [exact Hf|].
  destruct (ExprAST_codegen_fails_iff e st) as ((H1 & _) & H2).
  split; [exact (H1 Hf)|exact (H2 Hf)].
Defined.

(** The prototype [f(x, y)] declared in the empty module, and the name
    [g] looked up after that. *)
Lemma PrototypeAST_codegen_declares_witness :
  let P := mkPrototypeAST "f" ["x"; "y"] in
  let st := main_init id "0" "" in
  getFunction (Name P) (TheModule st) = None /\
  "g" <> Name P /\
  fst (PrototypeAST_codegen P st) = Name P /\
  getFunction (Name P) (TheModule (snd (PrototypeAST_codegen P st)))
  = Some (mkFunction "f" ["x"; "y"] []) /\
  getFunction "g" (TheModule (snd (PrototypeAST_codegen P st)))
  = getFunction "g" (TheModule st) /\
  eraseFromParent (Name P) (snd (PrototypeAST_codegen P st)) = st.
Proof.
  intros P st.
  assert (getFunction (Name P) (TheModule st) = None) as Hf
      by (vm_compute; reflexivity).
  assert ("g" <> Name P) as Hne by discriminate.
  split; [exact Hf|]. split; [exact Hne|].
  destruct (PrototypeAST_codegen_declares P st Hf) as (H1 & H2 & H3 & H4).
  split; [exact H1|]. split; [exact H2|]. split; [exact (H3 "g" Hne)|exact H4].
Defined.

(** The definition of [__anon_expr] with the body [1 + 2] in the empty
    module. *)
Lemma FunctionAST_codegen_defines_witness :
  let F := mkFunctionAST (mkPrototypeAST "__anon_expr" [])
             (BinaryExprAST (ch "+") (NumberExprAST "1") (NumberExprAST "2")) in
  let st := main_init id "0" "" in
  constant_of (Body F) = Some "(1 + 2)" /\
  fst (FunctionAST_codegen F st) = Some "__anon_expr" /\
  open_block "__anon_expr" [] [] [ReturnInst (ConstantFP "(1 + 2)")]
             (snd (FunctionAST_codegen F st)).
Proof.
  intros F st.
  assert (constant_of (Body F) = Some "(1 + 2)") as Hd by reflexivity.
  split; [exact Hd|].
  destruct (FunctionAST_codegen_defines F st "(1 + 2)" Hd) as (H1 & H2 & _).
  split; [exact H1|].
  assert (function_before (Proto F) (TheModule st) = ([], [])) as Hb
      by (vm_compute; reflexivity).
  rewrite Hb in H2. exact H2.
Defined.

(** The definition of [f(x)] with the body [1]: the table binds [x] to
    the first argument. *)
Lemma FunctionAST_codegen_NamedValues_witness :
  let F := mkFunctionAST (mkPrototypeAST "f" ["x"]) (NumberExprAST "1") in
  let st := main_init id "0" "" in
  NamedValues (snd (FunctionAST_codegen F st)) !! "x" = Some (Argument 0 "x") /\
  "x" ∈ (function_before (Proto F) (TheModule st)).1 /\
  exists i, (function_before (Proto F) (TheModule st)).1 !! i = Some "x" /\
            Argument 0 "x" = Argument (double := string) i "x".
Proof.
  intros F st.
  assert (NamedValues (snd (FunctionAST_codegen F st)) !! "x"
          = Some (Argument 0 "x")) as Hl by (vm_compute; reflexivity).
  split; [exact Hl|].
  destruct (FunctionAST_codegen_NamedValues F st) as (_ & H).
  destruct (H "x") as (Hiff & Hval).
  split; [apply Hiff; exists (Argument 0 "x"); exact Hl|exact (Hval _ Hl)].
Defined.

(** The parse of [1+2] in the state [main] starts in. *)
Lemma ParseExpression_touches_only_its_own_witness :
  let st := main_init id "0" "1+2" in
  let e := Bin (ch "+") (Num id "1") (Num id "2") in
  let st' := match ParseExpression id 12 st with
             | Done _ s => s
             | OutOfFuel => st
             end in
  ParseExpression id 12 st = Done (Some e) st' /\ parser_only st st'.
Proof.
  intros st e st'.
  assert (ParseExpression id 12 st = Done (Some e) st') as H
      by (vm_compute; reflexivity).
  split; [exact H|].
  exact (ParseExpression_touches_only_its_own id 12%nat st (Some e) st' H).
Defined.

(** The input [1+2], handled in the state [main] starts in. *)
Lemma HandleTopLevelExpression_compiles_witness :
  let st := main_init id "0" "1+2" in
  let e := Bin (ch "+") (Num id "1") (Num id "2") in
  let st1 := match ParseExpression id 12 st with
             | Done _ s => s
             | OutOfFuel => st
             end in
  ParseExpression id 12 st = Done (Some e) st1 /\
  constant_of e = Some "(1 + 2)" /\
  getFunction "__anon_expr" (TheModule st) = None /\
  exists st',
    HandleTopLevelExpression id 12 st = Done tt st' /\
    stderr st' = stderr st1 ++ [Text ("Generated IR and result:" +:+ LF);
                               printed_anon_expr [ReturnInst (ConstantFP "(1 + 2)")];
                               Text LF] /\
    TheModule st' = TheModule st.
Proof.
  intros st e st1.
  assert (ParseExpression id 12 st = Done (Some e) st1) as Hp
      by (vm_compute; reflexivity).
  assert (constant_of e = Some "(1 + 2)") as Hd by reflexivity.
  assert (getFunction "__anon_expr" (TheModule st) = None) as Hf
      by (vm_compute; reflexivity).
  split; [exact Hp|]. split; [exact Hd|]. split; [exact Hf|].
  exact (HandleTopLevelExpression_compiles id 12%nat st e st1 "(1 + 2)" Hp Hd Hf).
Defined.

(** The run of [main] on [4/2;]. *)
Lemma main_prints_empty_module_witness :
  let st := match main id "0" 20 "4/2;" with
            | Done _ s => s
            | OutOfFuel => main_init id "0" ""
            end in
  main id "0" 20 "4/2;" = Done 0 st /\
  0 = 0 /\ TheModule st = [] /\ last (stderr st) = Some (PrintModule []).
Proof.
  intros st.
  assert (main id "0" 20 "4/2;" = Done 0 st) as H by (vm_compute; reflexivity).
  split; [exact H|].
  exact (main_prints_empty_module id "0" 20%nat "4/2;" 0 st H).
Defined.

(** The run of [main] on [1 < 2; 3 = 3]. *)
Lemma main_never_reports_invalid_operator_witness :
  let st := match main id "0" 30 "1 < 2; 3 = 3" with
            | Done _ s => s
            | OutOfFuel => main_init id "0" ""
            end in
  main id "0" 30 "1 < 2; 3 = 3" = Done 0 st /\
  invalid_operator_message ∉ stderr st.
Proof.
  intros st.
  assert (main id "0" 30 "1 < 2; 3 = 3" = Done 0 st) as H
      by (vm_compute; reflexivity).
  split; [exact H|].
  exact (main_never_reports_invalid_operator id "0" 30%nat "1 < 2; 3 = 3" 0 st H).
Defined.
